(** * CppBigInt: the [BigInt] value type of [Main.cpp]

    A shallow embedding of the arbitrary-precision integer of
    [src/Main.cpp] and the properties its specification states.

    Conventions of the embedding.
    - A [uint32_t] or [uint64_t] is a [Z]; where the C++ arithmetic can wrap,
      the wrap is written out with [u32] and [u64].
    - [std::vector<uint32_t>] is a [list Z], least significant word first.
      Reading [v[i]] or [v.back()] outside the vector is undefined behaviour in
      C++; it is the outcome [Undefined OutOfBounds] here.
    - A loop that runs upwards over the words recurses over the list; a loop
      that runs from the most significant word downwards recurses over the
      tail first.
    - [operator+] and [operator-] call each other, and two loops ([divmod]'s
      correction loop and the printing loop) have no syntactic bound: these
      take a [fuel] argument and answer [OutOfFuel] when it is used up.
    - Word counts are mathematical integers.  This is exact as long as a
      magnitude has fewer than [2^31] words; the one [int] product that
      overflows earlier, [32 * i] in [divmod], is checked explicitly, and so
      are the [size_t] difference [n - m + 1] of [divmod], which wraps when
      the shifted dividend is shorter than the shifted divisor, and the cast
      of [n - m] to [int]. *)

From Stdlib Require Import ZArith Lia String Ascii.
From stdpp Require Import base numbers list.

Local Open Scope Z_scope.

(** ** Machine integers and outcomes *)

Definition u32 (z : Z) : Z := z mod 2 ^ 32.
Definition u64 (z : Z) : Z := z mod 2 ^ 64.

(** [0xFFFFFFFF] *)
Definition mask32 : Z := 4294967295.

Definition is_word (d : Z) : Prop := 0 <= d < 2 ^ 32.

Inductive fault : Type :=
| OutOfBounds    (* a vector read or write outside [0, size) *)
| ClzOfZero      (* __builtin_clz(0) *)
| DivideByZero   (* a built-in integer division by 0 *)
| IntOverflow.   (* signed [int] overflow *)

Inductive outcome (A : Type) : Type :=
| Ok (a : A)
| Throw (what : string)      (* an exception leaves the function *)
| Undefined (f : fault)      (* the execution has undefined behaviour *)
| OutOfFuel.                 (* the recursion or loop did not finish in [fuel] *)

Arguments Ok {A} a.
Arguments Throw {A} what.
Arguments Undefined {A} f.
Arguments OutOfFuel {A}.

#[global] Instance outcome_ret : MRet outcome := @Ok.
#[global] Instance outcome_bind : MBind outcome := fun A B k m =>
  match m with
  | Ok a => k a
  | Throw w => Throw w
  | Undefined f => Undefined f
  | OutOfFuel => OutOfFuel
  end.

(** [v[i]] for a [size_t] index *)
Definition index (v : list Z) (i : Z) : outcome Z :=
  if i <? 0 then Undefined OutOfBounds
  else match v !! Z.to_nat i with
       | Some d => Ok d
       | None => Undefined OutOfBounds
       end.

(** [v.back()] *)
Definition back (v : list Z) : outcome Z :=
  match last v with
  | Some d => Ok d
  | None => Undefined OutOfBounds
  end.

(** [v[i] = d] *)
Definition store (v : list Z) (i : Z) (d : Z) : outcome (list Z) :=
  if (0 <=? i) && (i <? Z.of_nat (length v)) then Ok (<[Z.to_nat i := d]> v)
  else Undefined OutOfBounds.

(** [v.resize(n)] *)
Definition resize (n : nat) (v : list Z) : list Z :=
  take n v ++ replicate (n - length v) 0.

(** [static_cast<int>] of a [size_t] *)
Definition to_int (z : Z) : Z := (z + 2 ^ 31) mod 2 ^ 32 - 2 ^ 31.

(** [max_size()] of a [std::vector<uint32_t>] with 64-bit pointers *)
Definition max_size : Z := 2 ^ 61 - 1.

(** [v.resize(n)] for a [size_t] [n] that may have wrapped: beyond
    [max_size()] the vector throws [std::length_error], whose text is the
    one of libstdc++. *)
Definition vector_resize (n : Z) (v : list Z) : outcome (list Z) :=
  if max_size <? n then Throw "vector::_M_default_append"
  else Ok (resize (Z.to_nat n) v).

(** [__builtin_clz] on a 32-bit [unsigned int] *)
Definition builtin_clz (x : Z) : outcome Z :=
  if x =? 0 then Undefined ClzOfZero else Ok (31 - Z.log2 x).

(** [x * y] on [int] *)
Definition int_mul (x y : Z) : outcome Z :=
  if (- 2 ^ 31 <=? x * y) && (x * y <? 2 ^ 31) then Ok (x * y)
  else Undefined IntOverflow.

(** ** The data model *)

Record BigInt : Type := mkBigInt {
  digits : list Z;      (* base 2^32, least significant digit first *)
  negative : bool
}.

(** [BigInt()] *)
Definition empty : BigInt := mkBigInt [] false.

(** [BigInt(int value)], for [value] above [INT_MIN] *)
Definition of_int (value : Z) : BigInt :=
  let negative := value <? 0 in
  let value := if negative then - value else value in
  mkBigInt (if value =? 0 then [] else [u32 value]) negative.

(** [BigInt(uint32_t value)] *)
Definition of_uint32 (value : Z) : BigInt :=
  mkBigInt (if value =? 0 then [] else [value]) false.

(** [BigInt(int64_t value)], for [value] above [INT64_MIN] *)
Definition of_int64 (value : Z) : BigInt :=
  let negative := value <? 0 in
  let value := if negative then - value else value in
  mkBigInt
    (if value =? 0 then []
     else Z.land value mask32 ::
          (if mask32 <? value then [Z.land (Z.shiftr value 32) mask32] else []))
    negative.

(** The [while] of [trim], on the words from the most significant one down:
    [while (digits.size() > 1 && digits.back() == 0) digits.pop_back()]. *)
Fixpoint pop_zeros (r : list Z) : list Z :=
  match r with
  | d :: (_ :: _) as r' => if d =? 0 then pop_zeros r' else r
  | _ => r
  end.

Definition trim_digits (ds : list Z) : list Z :=
  reverse (pop_zeros (reverse ds)).

Definition trim (x : BigInt) : BigInt :=
  let ds := trim_digits (digits x) in
  mkBigInt ds
    (match ds with
     | [d] => if d =? 0 then false else negative x
     | _ => negative x
     end).

Definition isZero (x : BigInt) : bool :=
  match digits x with
  | [] => true
  | [d] => d =? 0
  | _ => false
  end.

Definition abs (x : BigInt) : BigInt := mkBigInt (digits x) false.

(** Unary minus *)
Definition neg (x : BigInt) : BigInt :=
  if isZero x then x else mkBigInt (digits x) (negb (negative x)).

(** ** Comparison *)

(** The loop of [operator<] over words of two vectors of the same size, from
    index [size - 1] down to 0: [Some b] when it returned [b], [None] when it
    fell through. *)
Fixpoint lt_loop (neg : bool) (xs ys : list Z) : option bool :=
  match xs, ys with
  | x :: xs', y :: ys' =>
      match lt_loop neg xs' ys' with
      | Some b => Some b
      | None => if x =? y then None
                else Some (if neg then y <? x else x <? y)
      end
  | _, _ => None
  end.

Definition lt (a b : BigInt) : bool :=
  if negb (Bool.eqb (negative a) (negative b)) then negative a
  else if negb (length (digits a) =? length (digits b))%nat then
    if negative a then (length (digits b) <? length (digits a))%nat
    else (length (digits a) <? length (digits b))%nat
  else match lt_loop (negative a) (digits a) (digits b) with
       | Some r => r
       | None => false
       end.

Definition ge (a b : BigInt) : bool := negb (lt a b).

Fixpoint digits_eqb (xs ys : list Z) : bool :=
  match xs, ys with
  | [], [] => true
  | x :: xs', y :: ys' => (x =? y) && digits_eqb xs' ys'
  | _, _ => false
  end.

(** [operator==] *)
Definition eqb (a b : BigInt) : bool :=
  Bool.eqb (negative a) (negative b) && digits_eqb (digits a) (digits b).

(** ** Addition and subtraction *)

(** The turns of the addition loop with [i >= n], which run while [carry] is
    not 0.  [carry] is a [uint64_t] and every turn shifts it right by 32 bits,
    so at most two turns can follow; [turns] counts them down. *)
Fixpoint add_carry (turns : nat) (carry : Z) : list Z :=
  match turns with
  | O => []
  | S t =>
      if carry =? 0 then []
      else let sum := carry in
           Z.land sum mask32 :: add_carry t (Z.shiftr sum 32)
  end.

(** The turns with [i < n] where only one of the two vectors still has a
    word at index [i]; [zs] is that vector from index [i] on. *)
Fixpoint add_rest (zs : list Z) (carry : Z) : list Z :=
  match zs with
  | [] => add_carry 2 carry
  | z :: zs' =>
      let sum := u64 (carry + z) in
      Z.land sum mask32 :: add_rest zs' (Z.shiftr sum 32)
  end.

(** The turns of the addition loop with [i < n]. *)
Fixpoint add_loop (xs ys : list Z) (carry : Z) : list Z :=
  match xs, ys with
  | [], _ => add_rest ys carry
  | _, [] => add_rest xs carry
  | x :: xs', y :: ys' =>
      let sum := u64 (u64 (carry + x) + y) in
      Z.land sum mask32 :: add_loop xs' ys' (Z.shiftr sum 32)
  end.

(** The loop of the subtraction, over the words of [*this]. *)
Fixpoint sub_loop (xs ys : list Z) (borrow : Z) : list Z :=
  match xs with
  | [] => []
  | x :: xs' =>
      let diff := x - borrow in
      let diff := match ys with y :: _ => diff - y | [] => diff end in
      let '(diff, borrow) :=
        if diff <? 0 then (diff + 2 ^ 32, 1) else (diff, 0) in
      Z.land diff mask32 :: sub_loop xs' (tail ys) borrow
  end.

(** [operator+] and binary [operator-].  Each call of one from the other
    takes one unit of [fuel]. *)
Fixpoint add (fuel : nat) (a b : BigInt) : outcome BigInt :=
  match fuel with
  | O => OutOfFuel
  | S fuel =>
      if Bool.eqb (negative a) (negative b) then
        Ok (mkBigInt (add_loop (digits a) (digits b) 0) (negative a))
      else sub fuel a (neg b)
  end
with sub (fuel : nat) (a b : BigInt) : outcome BigInt :=
  match fuel with
  | O => OutOfFuel
  | S fuel =>
      if negb (Bool.eqb (negative a) (negative b)) then add fuel a (neg b)
      else if ge (abs a) (abs b) then
        Ok (trim (mkBigInt (sub_loop (digits a) (digits b) 0) (negative a)))
      else r ← sub fuel b a; Ok (neg r)
  end.

(** ** Multiplication *)

(** The inner loop of [operator*] for one word [x] of [*this]; [res] is
    [result.digits] from index [i + j] on, [ys] is [other.digits] from index
    [j] on.  The loop goes on while [j < other.digits.size() || carry]. *)
Fixpoint mul_inner (x : Z) (ys : list Z) (carry : Z) (res : list Z)
  : outcome (list Z) :=
  match ys, res with
  | [], [] => if carry =? 0 then Ok [] else Undefined OutOfBounds
  | [], r :: res' =>
      if carry =? 0 then Ok res
      else let sum := u64 (r + u64 (x * 0) + carry) in
           rest ← mul_inner x [] (Z.shiftr sum 32) res';
           Ok (Z.land sum mask32 :: rest)
  | y :: ys', [] => Undefined OutOfBounds
  | y :: ys', r :: res' =>
      let sum := u64 (r + u64 (x * y) + carry) in
      rest ← mul_inner x ys' (Z.shiftr sum 32) res';
      Ok (Z.land sum mask32 :: rest)
  end.

(** The outer loop; [res] is [result.digits] from index [i] on. *)
Fixpoint mul_outer (xs ys res : list Z) : outcome (list Z) :=
  match xs with
  | [] => Ok res
  | x :: xs' =>
      row ← mul_inner x ys 0 res;
      match row with
      | [] => mul_outer xs' ys []
      | r :: rest => rest' ← mul_outer xs' ys rest; Ok (r :: rest')
      end
  end.

(** [operator*] *)
Definition mul (a b : BigInt) : outcome BigInt :=
  let result := resize (length (digits a) + length (digits b)) [] in
  ds ← mul_outer (digits a) (digits b) result;
  Ok (trim (mkBigInt ds (negb (Bool.eqb (negative a) (negative b))))).

(** ** Shifts *)

(** The loop of [operator<<(int)], over the words from index [word_shift] up;
    it returns the new words and the final [carry]. *)
Fixpoint shl_loop (bit_shift : Z) (ds : list Z) (carry : Z) : list Z * Z :=
  match ds with
  | [] => ([], carry)
  | d :: ds' =>
      let current := Z.lor (u64 (Z.shiftl d bit_shift)) carry in
      let '(rest, c) := shl_loop bit_shift ds' (u32 (Z.shiftr current 32)) in
      (Z.land current mask32 :: rest, c)
  end.

(** [operator<<(int shift)], for [shift >= 0] *)
Definition shl (x : BigInt) (shift : Z) : BigInt :=
  if isZero x || (shift =? 0) then x
  else
    let word_shift := Z.quot shift 32 in
    let bit_shift := Z.rem shift 32 in
    let '(ds, carry) := shl_loop bit_shift (digits x) 0 in
    let ds := replicate (Z.to_nat word_shift) 0 ++ ds in
    let ds := if carry =? 0 then ds else ds ++ [u32 carry] in
    trim (mkBigInt ds (negative x)).

(** The loop of [operator>>(int)], from the last word down to index 0; it
    returns the new words and the final [carry]. *)
Fixpoint shr_loop (bit_shift : Z) (ds : list Z) : list Z * Z :=
  match ds with
  | [] => ([], 0)
  | d :: ds' =>
      let '(rest, carry) := shr_loop bit_shift ds' in
      let current := Z.lor (Z.shiftl carry 32) d in
      (Z.land (Z.shiftr current bit_shift) mask32 :: rest,
       u32 (Z.land current (Z.shiftl 1 bit_shift - 1)))
  end.

(** [operator>>(int shift)], for [shift >= 0] *)
Definition shr (x : BigInt) (shift : Z) : BigInt :=
  if isZero x || (shift =? 0) then x
  else
    let word_shift := Z.quot shift 32 in
    let bit_shift := Z.rem shift 32 in
    if Z.of_nat (length (digits x)) <=? word_shift then of_int 0
    else
      let ds := drop (Z.to_nat word_shift) (digits x) in
      trim (mkBigInt (shr_loop bit_shift ds).1 (negative x)).

(** ** Bitwise operations *)

(** The loop of [operator&], over [i < min(size, other.size)]. *)
Fixpoint and_loop (xs ys : list Z) : list Z :=
  match xs, ys with
  | x :: xs', y :: ys' => Z.land x y :: and_loop xs' ys'
  | _, _ => []
  end.

(** [operator&] *)
Definition band (a b : BigInt) : BigInt :=
  trim (mkBigInt (and_loop (digits a) (digits b)) (negative empty)).

(** The loop of [operator|], over [i < max(size, other.size)]; a vector that
    has no word at index [i] contributes 0. *)
Fixpoint or_loop (xs ys : list Z) : list Z :=
  match xs, ys with
  | [], [] => []
  | x :: xs', [] => Z.lor x 0 :: or_loop xs' []
  | [], y :: ys' => Z.lor 0 y :: map (Z.lor 0) ys'
  | x :: xs', y :: ys' => Z.lor x y :: or_loop xs' ys'
  end.

(** [operator|] *)
Definition bor (a b : BigInt) : BigInt :=
  trim (mkBigInt (or_loop (digits a) (digits b)) (negative empty)).

(** ** Division *)

(** The loop of [divmod_small], from the last word down to index 0; it
    returns the quotient words and the final [remainder]. *)
Fixpoint divmod_small_loop (divisor : Z) (ds : list Z) : list Z * Z :=
  match ds with
  | [] => ([], 0)
  | d :: ds' =>
      let '(rest, remainder) := divmod_small_loop divisor ds' in
      let current := u64 (u64 (Z.shiftl remainder 32) + d) in
      (u32 (current / divisor) :: rest, current mod divisor)
  end.

(** [divmod_small]: the new value of [*this] and the returned remainder. *)
Definition divmod_small (x : BigInt) (divisor : Z) : outcome (BigInt * Z) :=
  if (divisor =? 0) && negb (length (digits x) =? 0)%nat
  then Undefined DivideByZero
  else
    let '(ds, remainder) := divmod_small_loop divisor (digits x) in
    Ok (trim (mkBigInt ds (negative x)), u32 remainder).

(** The correction loop of [divmod]:
    [while (remainder < mult) { --qguess; mult = ...; mult <<= 32 * i; }]. *)
Fixpoint correct_loop (fuel : nat) (remainder divisor : BigInt) (i : Z)
    (qguess : Z) (mult : BigInt) : outcome (Z * BigInt) :=
  match fuel with
  | O => OutOfFuel
  | S fuel =>
      if lt remainder mult then
        let qguess := u64 (qguess - 1) in
        mult ← mul divisor (of_uint32 (u32 qguess));
        s ← int_mul 32 i;
        correct_loop fuel remainder divisor i qguess (shl mult s)
      else Ok (qguess, mult)
  end.

(** The window of the two remainder words that estimate quotient word [i];
    [m] is [divisor.digits.size()]. *)
Definition estimate (remainder divisor : BigInt) (m i : Z) : outcome Z :=
  r_hi ← (if i + m <? Z.of_nat (length (digits remainder))
          then index (digits remainder) (i + m) else Ok 0);
  r_lo ← index (digits remainder) (i + m - 1);
  let numerator := u64 (u64 (Z.shiftl r_hi 32) + r_lo) in
  denominator ← back (digits divisor);
  qguess ← (if denominator =? 0 then Undefined DivideByZero
            else Ok (numerator / denominator));
  Ok (if mask32 <? qguess then mask32 else qguess).

(** One turn of the long-division loop, for quotient position [i]. *)
Definition divmod_step (fuel : nat) (divisor : BigInt) (m i : Z)
    (quotient remainder : BigInt) : outcome (BigInt * BigInt) :=
  qguess ← estimate remainder divisor m i;
  mult ← mul divisor (of_uint32 (u32 qguess));
  s ← int_mul 32 i;
  '(qguess, mult) ← correct_loop fuel remainder divisor i qguess (shl mult s);
  qd ← store (digits quotient) i (u32 qguess);
  remainder ← sub fuel remainder mult;
  Ok (mkBigInt qd (negative quotient), remainder).

(** [for (int i = n - m; i >= 0; --i)]; [count] is [i + 1]. *)
Fixpoint divmod_loop (fuel : nat) (divisor : BigInt) (m : Z) (count : nat)
    (quotient remainder : BigInt) : outcome (BigInt * BigInt) :=
  match count with
  | O => Ok (quotient, remainder)
  | S i =>
      '(quotient, remainder) ←
        divmod_step fuel divisor m (Z.of_nat i) quotient remainder;
      divmod_loop fuel divisor m i quotient remainder
  end.

(** The shift amount that [divmod] calls [norm]. *)
Definition divmod_norm (divisor : BigInt) : outcome Z :=
  top ← back (digits divisor);
  lz ← builtin_clz top;
  Ok (32 - lz).

(** [divmod]: the values left in [quotient] and [remainder]. *)
Definition divmod (fuel : nat) (a b : BigInt) : outcome (BigInt * BigInt) :=
  if isZero b then Throw "Division by zero"
  else if isZero a then Ok (of_int 0, of_int 0)
  else
    let remainder := abs a in
    let divisor := abs b in
    if lt remainder divisor then Ok (of_int 0, a)
    else
      norm ← divmod_norm divisor;
      let divisor := if norm =? 0 then divisor else shl divisor norm in
      let remainder := if norm =? 0 then remainder else shl remainder norm in
      let n := Z.of_nat (length (digits remainder)) in
      let m := Z.of_nat (length (digits divisor)) in
      qd ← vector_resize (u64 (n - m + 1)) (digits (of_int 0));
      let quotient := mkBigInt qd (negative (of_int 0)) in
      '(quotient, remainder) ←
        divmod_loop fuel divisor m (Z.to_nat (to_int (u64 (n - m)) + 1))
          quotient remainder;
      let quotient := trim quotient in
      let remainder := if norm =? 0 then remainder else shr remainder norm in
      let quotient :=
        mkBigInt (digits quotient)
                 (negb (Bool.eqb (negative a) (negative b))) in
      let remainder := mkBigInt (digits remainder) (negative a) in
      Ok (trim quotient, trim remainder).

(** [operator/] and [operator%] *)
Definition div (fuel : nat) (a b : BigInt) : outcome BigInt :=
  '(quotient, _) ← divmod fuel a b; Ok quotient.

Definition rem (fuel : nat) (a b : BigInt) : outcome BigInt :=
  '(_, remainder) ← divmod fuel a b; Ok remainder.

(** ** Decimal text *)

(** [c - '0'] for a [char c]; [char] is signed, as on the x86 targets of the
    compilers that provide [__builtin_clz]. *)
Definition char_minus_0 (c : ascii) : Z :=
  let code := Z.of_nat (nat_of_ascii c) in
  (if code <? 128 then code else code - 256) - 48.

(** [while (str.size() > 1 && str[0] == '0') str.erase(0, 1)] *)
Fixpoint strip_zeros (str : string) : string :=
  match str with
  | String c (String _ _ as rest) =>
      if Ascii.eqb c "0" then strip_zeros rest else str
  | _ => str
  end.

(** [for (char c : str) result = result * 10 + BigInt(c - '0')] *)
Fixpoint parse_loop (fuel : nat) (str : string) (result : BigInt)
  : outcome BigInt :=
  match str with
  | EmptyString => Ok result
  | String c rest =>
      p ← mul result (of_int 10);
      r ← add fuel p (of_int (char_minus_0 c));
      parse_loop fuel rest r
  end.

(** [BigInt(const std::string &s)]; [s[0]] of an empty string is the
    terminating ['\0']. *)
Definition parse (fuel : nat) (s : string) : outcome BigInt :=
  let '(negative, str) :=
    match s with
    | String c rest => if Ascii.eqb c "-" then (true, rest) else (false, s)
    | EmptyString => (false, s)
    end in
  let str := strip_zeros str in
  result ← parse_loop fuel str (of_int 0);
  Ok (mkBigInt (digits result) negative).

Fixpoint string_rev (s : string) : string :=
  match s with
  | EmptyString => EmptyString
  | String c rest => (string_rev rest ++ String c EmptyString)%string
  end.

(** [while (!temp.isZero()) s.push_back('0' + temp.divmod_small(10))] *)
Fixpoint to_string_loop (fuel : nat) (temp : BigInt) (s : string)
  : outcome string :=
  match fuel with
  | O => OutOfFuel
  | S fuel =>
      if isZero temp then Ok s
      else
        '(temp, remainder) ← divmod_small temp 10;
        let c := ascii_of_nat (Z.to_nat (u32 (48 + remainder) mod 256)) in
        to_string_loop fuel temp (s ++ String c EmptyString)%string
  end.

(** [operator<<(std::ostream &, const BigInt &)]: the characters written. *)
Definition to_string (fuel : nat) (x : BigInt) : outcome string :=
  if isZero x then Ok "0"%string
  else
    s ← to_string_loop fuel (abs x) EmptyString;
    Ok ((if negative x then "-" else "") ++ string_rev s)%string.

(** * Values, well-formed numbers and the vocabulary of the statements *)

(** The integer a word vector stands for. *)
Fixpoint val (ds : list Z) : Z :=
  match ds with
  | [] => 0
  | d :: ds' => d + 2 ^ 32 * val ds'
  end.

(** The integer a [BigInt] stands for. *)
Definition value (x : BigInt) : Z :=
  if negative x then - val (digits x) else val (digits x).

Definition words (ds : list Z) : Prop := Forall is_word ds.

(** A non-empty vector without redundant top words: [[0]], or the last word
    is not 0.  This is what [trim] leaves of a non-empty vector. *)
Definition normal (ds : list Z) : Prop :=
  words ds /\ (ds = [0] \/ exists t, last ds = Some t /\ t <> 0).

(** The numbers the public operations hand out: all words are 32-bit, and
    the magnitude is empty or [normal]. *)
Definition wf (x : BigInt) : Prop :=
  words (digits x) /\ (digits x = [] \/ normal (digits x)).

(** [2^32] to the power [n] *)
Definition pow32 (n : nat) : Z := 2 ^ (32 * Z.of_nat n).

(** The numbers [divmod]'s loop works on: non-negative with a normal
    magnitude. *)
Definition magnitude (x : BigInt) : Prop :=
  negative x = false /\ normal (digits x).

(** The true quotient digit at position [i]. *)
Definition digit_at (R D : Z) (i : nat) : Z := R / (D * pow32 i).

(** Fuel that lets every correction loop of a division finish: a trial digit
    is at most [0xFFFFFFFF] and goes down by one per turn. *)
Definition correction_fuel : nat := Z.to_nat (2 ^ 32).

(** The state of the long division before the turn for position [k - 1]:
    [A] is the value of the shifted dividend. *)
Definition loop_inv (A : Z) (D : BigInt) (k : nat) (Q R : BigInt) : Prop :=
  magnitude R /\ words (digits Q) /\
  (k <= length (digits Q))%nat /\ take k (digits Q) = replicate k 0 /\
  A = val (digits D) * val (digits Q) + val (digits R) /\
  val (digits R) < val (digits D) * pow32 k.

(** The residue of the shifted dividend [A] that the turn for position [i]
    finds in the remainder has fewer than [i + m] words, [m] being the word
    count of the shifted divisor of value [Dv]. *)
Definition short_residue (A Dv : Z) (m i : nat) : Prop :=
  (2 <= i + m)%nat /\ A mod (Dv * pow32 (S i)) < pow32 (i + m - 1).

(** What [divmod] leaves in [quotient] and [remainder], on magnitudes. *)
Definition divmod_post (a b q r : BigInt) : Prop :=
  val (digits q) = val (digits a) / val (digits b) /\
  val (digits r) = val (digits a) mod val (digits b) /\
  negative q =
    negb (Bool.eqb (negative a) (negative b)) && negb (val (digits q) =? 0) /\
  negative r = negative a && negb (val (digits r) =? 0) /\
  wf q /\ wf r.

Definition no_throw {A} (o : outcome A) : Prop := forall what, o <> Throw what.

(** A decimal digit, and the number a string of digits denotes. *)
Definition is_digit (c : ascii) : bool :=
  let code := Z.of_nat (nat_of_ascii c) in (48 <=? code) && (code <=? 57).

Fixpoint all_digits (s : string) : bool :=
  match s with
  | EmptyString => true
  | String c rest => is_digit c && all_digits rest
  end.

Fixpoint decimal (s : string) (acc : Z) : Z :=
  match s with
  | EmptyString => acc
  | String c rest => decimal rest (10 * acc + (Z.of_nat (nat_of_ascii c) - 48))
  end.

(** The specification's words: AND over the overlapping word range, OR over
    the union range with missing words read as zero. *)
Definition wordwise_and (xs ys : list Z) : list Z :=
  let n := (length xs `min` length ys)%nat in
  zip_with Z.land (take n xs) (take n ys).

Definition pad (n : nat) (xs : list Z) : list Z :=
  xs ++ replicate (n - length xs) 0.

Definition wordwise_or (xs ys : list Z) : list Z :=
  let n := (length xs `max` length ys)%nat in
  zip_with Z.lor (pad n xs) (pad n ys).

(** Invariant I1: no redundant most significant zero word. *)
Definition normalized (ds : list Z) : Prop :=
  (1 < length ds)%nat -> last ds <> Some 0.

(** A number in canonical form: a normal magnitude, and no negative zero. *)
Definition canonical (x : BigInt) : Prop :=
  normal (digits x) /\ (val (digits x) = 0 -> negative x = false).

(** The number a string of digits denotes when read from its last character
    to its first. *)
Fixpoint decimal_lsd (s : string) : Z :=
  match s with
  | EmptyString => 0
  | String c rest => (Z.of_nat (nat_of_ascii c) - 48) + 10 * decimal_lsd rest
  end.

(** * Basic facts about values and normal vectors *)

Lemma pow32_0 : pow32 0 = 1.
Proof. reflexivity. Qed.

Lemma pow32_S n : pow32 (S n) = 2 ^ 32 * pow32 n.
Proof.
  unfold pow32. rewrite Nat2Z.inj_succ, <- Z.pow_add_r by lia. f_equal. lia.
Qed.

Lemma pow32_pos n : 0 < pow32 n.
Proof. unfold pow32. apply Z.pow_pos_nonneg; lia. Qed.

Lemma pow32_add n k : pow32 (n + k) = pow32 n * pow32 k.
Proof.
  unfold pow32. rewrite Nat2Z.inj_add, <- Z.pow_add_r by lia. f_equal. lia.
Qed.

Lemma pow32_le n k : (n <= k)%nat -> pow32 n <= pow32 k.
Proof. intros. unfold pow32. apply Z.pow_le_mono_r; lia. Qed.

Lemma pow32_lt n k : (n < k)%nat -> pow32 n < pow32 k.
Proof. intros. unfold pow32. apply Z.pow_lt_mono_r; lia. Qed.

Lemma pow32_shift n : pow32 n = 2 ^ (32 * Z.of_nat n).
Proof. reflexivity. Qed.

#[global] Opaque pow32.

Lemma val_cons d ds : val (d :: ds) = d + 2 ^ 32 * val ds.
Proof. reflexivity. Qed.

Lemma val_app xs ys : val (xs ++ ys) = val xs + pow32 (length xs) * val ys.
Proof.
  induction xs as [|x xs IH]; cbn [app length val].
  - rewrite pow32_0. lia.
  - rewrite IH, pow32_S. lia.
Qed.

Lemma val_snoc xs d : val (xs ++ [d]) = val xs + pow32 (length xs) * d.
Proof. rewrite val_app. cbn [val]. lia. Qed.

Lemma val_replicate_0 n : val (replicate n 0) = 0.
Proof. induction n as [|n IH]; cbn [replicate val]; lia. Qed.

Lemma val_bound ds : words ds -> 0 <= val ds < pow32 (length ds).
Proof.
  induction 1 as [|d ds Hd _ IH]; cbn [val length].
  - rewrite pow32_0. lia.
  - rewrite pow32_S. unfold is_word in Hd. lia.
Qed.

Lemma val_nonneg ds : words ds -> 0 <= val ds.
Proof. intros H. apply val_bound in H. lia. Qed.

Lemma words_app xs ys : words (xs ++ ys) <-> words xs /\ words ys.
Proof. apply Forall_app. Qed.

Lemma words_replicate_0 n : words (replicate n 0).
Proof. apply Forall_replicate. unfold is_word. lia. Qed.

Lemma words_last ds t : words ds -> last ds = Some t -> is_word t.
Proof.
  intros Hw Hl. apply last_Some in Hl as [l' ->].
  apply words_app in Hw as [_ Hw]. by inversion Hw.
Qed.

(** A vector whose last word is [t] is worth at least [t] at the top
    position. *)
Lemma val_top ds t :
  words ds -> last ds = Some t ->
  t * pow32 (length ds - 1) <= val ds < (t + 1) * pow32 (length ds - 1).
Proof.
  intros Hw Hl. apply last_Some in Hl as [l' ->].
  apply words_app in Hw as [Hw _]. apply val_bound in Hw.
  rewrite val_snoc, length_app. cbn [length].
  replace (length l' + 1 - 1)%nat with (length l') by lia. nia.
Qed.

Lemma normal_nonempty ds : normal ds -> ds <> [].
Proof. intros [_ [->|(t & Hl & _)]] E; [done | by subst]. Qed.

Lemma normal_words ds : normal ds -> words ds.
Proof. by intros [? _]. Qed.

Lemma normal_length ds : normal ds -> (1 <= length ds)%nat.
Proof.
  intros H. apply normal_nonempty in H. destruct ds; [done | cbn; lia].
Qed.

(** The value of a normal vector fixes its length. *)
Lemma normal_val_lower ds :
  normal ds -> ds = [0] \/ pow32 (length ds - 1) <= val ds.
Proof.
  intros [Hw [->|(t & Hl & Ht)]]; [by left | right].
  pose proof (words_last _ _ Hw Hl) as Hwt. unfold is_word in Hwt.
  pose proof (val_top _ _ Hw Hl). pose proof (pow32_pos (length ds - 1)). nia.
Qed.

Lemma normal_val_0 ds : normal ds -> val ds = 0 -> ds = [0].
Proof.
  intros Hn H0. destruct (normal_val_lower _ Hn) as [|Hlow]; [done|].
  pose proof (pow32_pos (length ds - 1)). lia.
Qed.

Lemma normal_length_le xs ys :
  normal xs -> normal ys -> val xs <= val ys -> (length xs <= length ys)%nat.
Proof.
  intros Hx Hy Hle.
  pose proof (normal_length _ Hx). pose proof (normal_length _ Hy).
  destruct (normal_val_lower _ Hx) as [->|Hlow]; [done|].
  pose proof (val_bound _ (normal_words _ Hy)) as Hb.
  destruct (decide (length xs <= length ys)%nat) as [|Hgt]; [done|].
  assert (pow32 (length ys) <= pow32 (length xs - 1)) by (apply pow32_le; lia).
  lia.
Qed.

Lemma normal_singleton d : is_word d -> normal [d].
Proof.
  intros Hd. split; [by apply Forall_singleton|].
  destruct (decide (d = 0)) as [->|]; [by left | right; by exists d].
Qed.

(** ** [trim] *)

Lemma pop_zeros_spec r :
  exists k, r = replicate k 0 ++ pop_zeros r /\
            (pop_zeros r = [] -> r = []) /\
            match pop_zeros r with d :: _ :: _ => d <> 0 | _ => True end.
Proof.
  induction r as [|d r IH]; [by exists 0%nat|].
  destruct r as [|d' r]; [by exists 0%nat|].
  change (pop_zeros (d :: d' :: r))
    with (if d =? 0 then pop_zeros (d' :: r) else d :: d' :: r).
  destruct (Z.eqb_spec d 0) as [->|Hd].
  - destruct IH as (k & Hk & Hne & Htop). exists (S k). cbn [replicate app].
    split; [by f_equal|]. split; [|done].
    intros H. by apply Hne in H.
  - by exists 0%nat.
Qed.

Lemma trim_digits_spec ds :
  exists k, ds = trim_digits ds ++ replicate k 0 /\
            (trim_digits ds = [] -> ds = []) /\
            ((1 < length (trim_digits ds))%nat ->
             exists t, last (trim_digits ds) = Some t /\ t <> 0).
Proof.
  unfold trim_digits. destruct (pop_zeros_spec (reverse ds)) as (k & Hk & Hne & Htop).
  exists k. split; [|split].
  - rewrite <- (reverse_involutive ds) at 1. rewrite Hk at 1.
    by rewrite reverse_app, reverse_replicate.
  - intros H. apply (f_equal reverse) in H. rewrite reverse_involutive in H.
    cbn in H. apply Hne in H. apply (f_equal reverse) in H.
    by rewrite reverse_involutive in H.
  - rewrite length_reverse, last_reverse.
    destruct (pop_zeros (reverse ds)) as [|d [|d' r]]; cbn; try lia.
    intros _. by exists d.
Qed.

Lemma val_trim_digits ds : val (trim_digits ds) = val ds.
Proof.
  destruct (trim_digits_spec ds) as (k & Hk & _).
  rewrite Hk at 2. rewrite val_app, val_replicate_0. lia.
Qed.

Lemma words_trim_digits ds : words ds -> words (trim_digits ds).
Proof.
  destruct (trim_digits_spec ds) as (k & Hk & _).
  intros H. rewrite Hk in H. by apply words_app in H as [? _].
Qed.

Lemma length_trim_digits ds : (length (trim_digits ds) <= length ds)%nat.
Proof.
  destruct (trim_digits_spec ds) as (k & Hk & _).
  rewrite Hk at 2. rewrite length_app. lia.
Qed.

Lemma trim_digits_nil : trim_digits [] = [].
Proof. reflexivity. Qed.

Lemma normal_trim_digits ds : words ds -> ds <> [] -> normal (trim_digits ds).
Proof.
  intros Hw Hne. pose proof (words_trim_digits _ Hw) as Hw'.
  destruct (trim_digits_spec ds) as (k & Hk & Hnil & Htop).
  split; [done|].
  destruct (trim_digits ds) as [|d [|d' r]] eqn:E.
  - by specialize (Hnil eq_refl).
  - destruct (decide (d = 0)) as [->|]; [by left | right; by exists d].
  - right. apply Htop. cbn. lia.
Qed.

Lemma pop_zeros_id r :
  match r with d :: _ :: _ => d <> 0 | _ => True end -> pop_zeros r = r.
Proof.
  destruct r as [|d [|d' r]]; try done. cbn.
  intros Hd. by destruct (Z.eqb_spec d 0).
Qed.

Lemma trim_digits_normal ds : normal ds -> trim_digits ds = ds.
Proof.
  intros [_ [->|(t & Hl & Ht)]]; [done|].
  unfold trim_digits. rewrite pop_zeros_id; [apply reverse_involutive|].
  rewrite <- head_reverse in Hl.
  destruct (reverse ds) as [|d [|d' r]]; try done. cbn in Hl. congruence.
Qed.

Lemma trim_digits_wf ds : ds = [] \/ normal ds -> trim_digits ds = ds.
Proof. intros [->|H]; [done | by apply trim_digits_normal]. Qed.

Lemma digits_trim x : digits (trim x) = trim_digits (digits x).
Proof. reflexivity. Qed.

Lemma negative_trim x :
  negative (trim x) =
  negative x && negb (match trim_digits (digits x) with [d] => d =? 0 | _ => false end).
Proof.
  unfold trim. cbn [negative].
  destruct (trim_digits (digits x)) as [|d [|d' r]]; cbn.
  - by rewrite andb_true_r.
  - destruct (d =? 0); cbn; [by rewrite andb_false_r | by rewrite andb_true_r].
  - by rewrite andb_true_r.
Qed.

(** [isZero] on well-formed numbers is the test [value = 0]. *)
Lemma isZero_val x : wf x -> isZero x = true <-> val (digits x) = 0.
Proof.
  intros [Hw Hn]. unfold isZero. destruct (digits x) as [|d [|d' r]] eqn:E.
  - done.
  - cbn [val]. rewrite Z.eqb_eq. lia.
  - split; [done|]. intros H0. destruct Hn as [|Hn]; [done|].
    apply normal_val_0 in Hn; done.
Qed.

Lemma isZero_false_normal x :
  wf x -> isZero x = false -> normal (digits x) /\ 0 < val (digits x).
Proof.
  intros Hwf Hz. pose proof (isZero_val x Hwf) as Hiff.
  destruct Hwf as [Hw [Hn|Hn]].
  - unfold isZero in Hz. by rewrite Hn in Hz.
  - split; [done|]. pose proof (val_nonneg _ Hw).
    destruct (decide (val (digits x) = 0)) as [H0|]; [|lia].
    apply Hiff in H0. congruence.
Qed.

(** * Word arithmetic *)

Lemma land_mask32 z : Z.land z mask32 = z mod 2 ^ 32.
Proof. change mask32 with (Z.ones 32). apply Z.land_ones. lia. Qed.

Lemma shiftr_32 z : Z.shiftr z 32 = z / 2 ^ 32.
Proof. apply Z.shiftr_div_pow2. lia. Qed.

Lemma u64_small z : 0 <= z < 2 ^ 64 -> u64 z = z.
Proof. intros. unfold u64. by apply Z.mod_small. Qed.

Lemma u32_small z : 0 <= z < 2 ^ 32 -> u32 z = z.
Proof. intros. unfold u32. by apply Z.mod_small. Qed.

(** Splitting a non-negative number into its low word and the rest. *)
Lemma split_word z :
  0 <= z ->
  z = z mod 2 ^ 32 + 2 ^ 32 * (z / 2 ^ 32) /\
  is_word (z mod 2 ^ 32) /\ 0 <= z / 2 ^ 32.
Proof.
  intros Hz. pose proof (Z.div_mod z (2 ^ 32)) as Hdm.
  pose proof (Z.mod_pos_bound z (2 ^ 32)) as Hm.
  pose proof (Z.div_pos z (2 ^ 32)) as Hd.
  unfold is_word. lia.
Qed.

Lemma div_word_bound z k : 0 <= z < 2 ^ 32 * k -> z / 2 ^ 32 < k.
Proof. intros. apply Z.div_lt_upper_bound; lia. Qed.

(** * Comparison *)

Lemma lt_loop_spec xs ys :
  length xs = length ys -> words xs -> words ys ->
  match lt_loop false xs ys with
  | None => xs = ys
  | Some b => val xs <> val ys /\ b = (val xs <? val ys)
  end.
Proof.
  revert ys. induction xs as [|x xs IH]; intros [|y ys] Hlen Hx Hy;
    try discriminate; [done|].
  cbn [lt_loop]. inversion Hx as [|? ? Hwx Hwxs]; subst.
  inversion Hy as [|? ? Hwy Hwys]; subst.
  injection Hlen as Hlen. specialize (IH ys Hlen Hwxs Hwys).
  unfold is_word in *. cbn [val].
  destruct (lt_loop false xs ys) as [b|].
  - destruct IH as [Hne ->]. split; [lia|].
    destruct (Z.ltb_spec (val xs) (val ys)), (Z.ltb_spec (x + 2 ^ 32 * val xs) (y + 2 ^ 32 * val ys)); lia.
  - subst ys. destruct (Z.eqb_spec x y) as [->|Hne]; [done|].
    split; [lia|].
    destruct (Z.ltb_spec x y), (Z.ltb_spec (x + 2 ^ 32 * val xs) (y + 2 ^ 32 * val xs)); lia.
Qed.

(** On non-negative numbers with normal magnitudes [operator<] is the order
    of the values. *)
Lemma lt_nonneg a b :
  negative a = false -> negative b = false ->
  normal (digits a) -> normal (digits b) ->
  lt a b = (val (digits a) <? val (digits b)).
Proof.
  intros Ha Hb Hna Hnb. unfold lt. rewrite Ha, Hb. cbn [Bool.eqb negb].
  destruct (Nat.eqb_spec (length (digits a)) (length (digits b))) as [Hlen|Hlen];
    cbn [negb].
  - pose proof (lt_loop_spec _ _ Hlen (normal_words _ Hna) (normal_words _ Hnb)) as H.
    destruct (lt_loop false (digits a) (digits b)) as [r|].
    + by destruct H.
    + rewrite H. symmetry. apply Z.ltb_irrefl.
  - destruct (Nat.ltb_spec (length (digits a)) (length (digits b))) as [Hlt|Hge];
      symmetry.
    + apply Z.ltb_lt.
      destruct (Z.lt_ge_cases (val (digits a)) (val (digits b))) as [|Hle]; [done|].
      apply (normal_length_le _ _ Hnb Hna) in Hle. lia.
    + apply Z.ltb_ge.
      destruct (Z.le_gt_cases (val (digits b)) (val (digits a))) as [|Hlt]; [done|].
      assert (val (digits a) <= val (digits b)) as Hle by lia.
      apply (normal_length_le _ _ Hna Hnb) in Hle. lia.
Qed.

(** * Addition *)

Lemma add_carry_bit c :
  0 <= c <= 1 -> add_carry 2 c = if c =? 0 then [] else [1].
Proof.
  intros Hc. assert (c = 0 \/ c = 1) as [-> | ->] by lia; reflexivity.
Qed.

(** The shape of the sum: [max] low words and at most one carry word. *)
Lemma add_rest_shape zs c :
  words zs -> 0 <= c <= 1 ->
  exists low c', add_rest zs c = low ++ add_carry 2 c' /\
    length low = length zs /\ 0 <= c' <= 1 /\ words low /\
    val low + pow32 (length zs) * c' = val zs + c.
Proof.
  intros Hw. revert c. induction Hw as [|z zs Hz _ IH]; intros c Hc.
  - exists [], c. cbn. rewrite pow32_0. repeat split; try done; try lia. constructor.
  - cbn [add_rest]. unfold is_word in Hz.
    rewrite u64_small, land_mask32, shiftr_32 by lia.
    destruct (split_word (c + z)) as (Hs & Hsw & Hsd); [lia|].
    pose proof (div_word_bound (c + z) 2 ltac:(lia)).
    destruct (IH ((c + z) / 2 ^ 32)) as (low & c' & -> & Hlen & Hc' & Hwl & Hv); [lia|].
    exists ((c + z) mod 2 ^ 32 :: low), c'. cbn [app length val].
    rewrite Hlen, pow32_S. repeat split; try done; try lia. by constructor.
Qed.

Lemma add_loop_shape xs ys c :
  words xs -> words ys -> 0 <= c <= 1 ->
  exists low c', add_loop xs ys c = low ++ add_carry 2 c' /\
    length low = (length xs `max` length ys)%nat /\ 0 <= c' <= 1 /\ words low /\
    val low + pow32 (length xs `max` length ys) * c' = val xs + val ys + c.
Proof.
  intros Hx. revert ys c. induction Hx as [|x xs Hwx Hx IH]; intros ys c Hy Hc.
  - destruct (add_rest_shape ys c Hy Hc) as (low & c' & E & Hl & Hc' & Hw & Hv).
    exists low, c'. cbn [length val Nat.max].
    split; [by destruct ys|]. repeat split; try done; lia.
  - destruct Hy as [|y ys Hwy Hy].
    + destruct (add_rest_shape (x :: xs) c) as (low & c' & E & Hl & Hc' & Hw & Hv);
        [by constructor | done |].
      exists low, c'. rewrite Nat.max_0_r. cbn [val] in *.
      repeat split; try done; lia.
    + cbn [add_loop]. unfold is_word in Hwx, Hwy.
      rewrite (u64_small (c + x)), u64_small, land_mask32, shiftr_32 by lia.
      destruct (split_word (c + x + y)) as (Hs & Hsw & Hsd); [lia|].
      pose proof (div_word_bound (c + x + y) 2 ltac:(lia)).
      destruct (IH ys ((c + x + y) / 2 ^ 32)) as (low & c' & -> & Hlen & Hc' & Hwl & Hv);
        [done | lia |].
      exists ((c + x + y) mod 2 ^ 32 :: low), c'. cbn [app length val].
      rewrite Hlen. change (S (length xs) `max` S (length ys))%nat
        with (S (length xs `max` length ys)).
      rewrite pow32_S. repeat split; try done; try lia. by constructor.
Qed.

Lemma add_loop_val xs ys :
  words xs -> words ys ->
  val (add_loop xs ys 0) = val xs + val ys /\ words (add_loop xs ys 0).
Proof.
  intros Hx Hy.
  destruct (add_loop_shape xs ys 0 Hx Hy) as (low & c' & -> & Hlen & Hc' & Hwl & Hv); [lia|].
  rewrite add_carry_bit by done. rewrite val_app, Hlen.
  destruct (Z.eqb_spec c' 0) as [->|Hne].
  - rewrite app_nil_r. cbn [val]. split; [lia | done].
  - assert (c' = 1) as -> by lia. cbn [val]. split; [lia|].
    apply words_app. split; [done|]. apply Forall_singleton. unfold is_word. lia.
Qed.

(** A non-empty vector worth at least its top position is normal. *)
Lemma normal_of_lower ds :
  words ds -> ds <> [] -> pow32 (length ds - 1) <= val ds -> normal ds.
Proof.
  intros Hw Hne Hlow. split; [done|]. right.
  destruct (last ds) as [t|] eqn:Hl; [|by apply last_None in Hl].
  exists t. split; [done|]. intros ->.
  pose proof (val_top _ _ Hw Hl). lia.
Qed.

Lemma add_loop_wf xs ys :
  words xs -> words ys -> xs = [] \/ normal xs -> ys = [] \/ normal ys ->
  add_loop xs ys 0 = [] \/ normal (add_loop xs ys 0).
Proof.
  intros Hx Hy Hnx Hny.
  destruct (add_loop_shape xs ys 0 Hx Hy) as (low & c' & E & Hlen & Hc' & Hwl & Hv); [lia|].
  rewrite E, add_carry_bit by done. clear E.
  assert (c' = 0 \/ c' = 1) as [-> | ->] by lia; cbn [Z.eqb].
  - rewrite app_nil_r. destruct low as [|l0 low]; [by left | right].
    destruct (decide (length (l0 :: low) = 1)%nat) as [H1|H1].
    { destruct low; [|done]. apply normal_singleton. by inversion Hwl. }
    apply normal_of_lower; [done..|]. rewrite Hlen.
    assert (pow32 (length xs `max` length ys - 1) <= val xs + val ys); [|lia].
    pose proof (val_nonneg _ Hx) as Hvx. pose proof (val_nonneg _ Hy) as Hvy.
    destruct (Nat.max_spec_le (length xs) (length ys)) as [[Hle Hm]|[Hle Hm]];
      rewrite Hm; rewrite Hm in Hlen.
    + destruct Hny as [->|Hny]; [cbn in *; lia|].
      destruct (normal_val_lower _ Hny) as [->|Hlow];
        [cbn in *; congruence | clear - Hvx Hvy Hlow; lia].
    + destruct Hnx as [->|Hnx]; [cbn in *; lia|].
      destruct (normal_val_lower _ Hnx) as [->|Hlow];
        [cbn in *; congruence | clear - Hvx Hvy Hlow; lia].
  - right. split.
    + apply words_app. split; [done|]. apply Forall_singleton. by compute.
    + right. exists 1. by rewrite last_snoc.
Qed.

(** * Subtraction *)

Lemma sub_loop_shape xs ys b :
  words xs -> words ys -> 0 <= b <= 1 -> (length ys <= length xs)%nat ->
  exists bo, 0 <= bo <= 1 /\
    val (sub_loop xs ys b) = val xs - val ys - b + pow32 (length xs) * bo /\
    words (sub_loop xs ys b) /\ length (sub_loop xs ys b) = length xs.
Proof.
  intros Hx. revert ys b. induction Hx as [|x xs Hwx Hx IH]; intros ys b Hy Hb Hlen.
  - destruct ys; [|cbn in Hlen; lia]. exists b. cbn. rewrite pow32_0.
    repeat split; try lia. constructor.
  - unfold is_word in Hwx. cbn [sub_loop].
    set (d := match ys with y :: _ => x - b - y | [] => x - b end).
    assert (- 2 ^ 32 <= d < 2 ^ 32 /\ d + 2 ^ 32 * val (tail ys) = x - b + val ys - val ys + (d - (x - b)) + 2 ^ 32 * val (tail ys) /\
            val ys = (x - b - d) + 2 ^ 32 * val (tail ys) /\ words (tail ys) /\
            (length (tail ys) <= length xs)%nat) as (Hd & _ & Hvy & Hty & Hlt).
    { subst d. destruct Hy as [|y ys Hwy Hy]; cbn [tail val length] in *.
      - repeat split; try lia. constructor.
      - unfold is_word in Hwy. repeat split; try lia. done. }
    destruct (Z.ltb_spec d 0) as [Hneg|Hpos].
    + destruct (IH (tail ys) 1 Hty ltac:(lia) Hlt) as (bo & Hbo & Hv & Hw & Hl).
      exists bo. rewrite land_mask32, Z.mod_small by lia. cbn [val length].
      rewrite Hv, Hl, pow32_S. repeat split; try lia.
      constructor; [unfold is_word; lia | done].
    + destruct (IH (tail ys) 0 Hty ltac:(lia) Hlt) as (bo & Hbo & Hv & Hw & Hl).
      exists bo. rewrite land_mask32, Z.mod_small by lia. cbn [val length].
      rewrite Hv, Hl, pow32_S. repeat split; try lia.
      constructor; [unfold is_word; lia | done].
Qed.

Lemma sub_loop_val xs ys :
  words xs -> words ys -> (length ys <= length xs)%nat -> val ys <= val xs ->
  val (sub_loop xs ys 0) = val xs - val ys /\
  words (sub_loop xs ys 0) /\ length (sub_loop xs ys 0) = length xs.
Proof.
  intros Hx Hy Hlen Hle.
  destruct (sub_loop_shape xs ys 0 Hx Hy ltac:(lia) Hlen) as (bo & Hbo & Hv & Hw & Hl).
  repeat split; try done.
  pose proof (val_bound _ Hw) as Hb. rewrite Hl in Hb.
  pose proof (val_nonneg _ Hy). pose proof (val_bound _ Hx).
  assert (bo = 0 \/ bo = 1) as [-> | ->] by lia; lia.
Qed.

(** Subtracting a smaller non-negative number: no recursion, and the
    difference of the values. *)
Lemma sub_nonneg fuel a b :
  negative a = false -> negative b = false ->
  normal (digits a) -> normal (digits b) ->
  val (digits b) <= val (digits a) ->
  exists r, sub (S fuel) a b = Ok r /\ negative r = false /\ normal (digits r) /\
            val (digits r) = val (digits a) - val (digits b).
Proof.
  intros Ha Hb Hna Hnb Hle. cbn [sub]. rewrite Ha, Hb. cbn [Bool.eqb negb].
  unfold ge. rewrite lt_nonneg by done. cbn [abs digits].
  destruct (Z.ltb_spec (val (digits a)) (val (digits b))) as [|_]; [lia|]. cbn [negb].
  destruct (sub_loop_val (digits a) (digits b)) as (Hv & Hw & Hl);
    [by apply normal_words.. | by apply normal_length_le | done |].
  eexists. split; [reflexivity|]. rewrite negative_trim, digits_trim. cbn [negative digits].
  split; [done|]. split.
  - apply normal_trim_digits; [done|]. intros E. rewrite E in Hl.
    pose proof (normal_length _ Hna). cbn in Hl. lia.
  - by rewrite val_trim_digits.
Qed.

(** The scan of two vectors of the same length decides the order of their
    values. *)
Lemma lt_loop_order neg xs ys :
  length xs = length ys -> words xs -> words ys ->
  match lt_loop neg xs ys with
  | None => xs = ys
  | Some b => val xs <> val ys /\
              b = if neg then val ys <? val xs else val xs <? val ys
  end.
Proof.
  revert ys. induction xs as [|x xs IH]; intros [|y ys] Hlen Hx Hy;
    try discriminate; [done|].
  cbn [lt_loop]. inversion Hx as [|? ? Hwx Hwxs]; subst.
  inversion Hy as [|? ? Hwy Hwys]; subst.
  injection Hlen as Hlen. specialize (IH ys Hlen Hwxs Hwys).
  unfold is_word in *. cbn [val].
  destruct (lt_loop neg xs ys) as [b|].
  - destruct IH as [Hne ->]. split; [lia|].
    destruct neg;
      [destruct (Z.ltb_spec (val ys) (val xs)),
         (Z.ltb_spec (y + 2 ^ 32 * val ys) (x + 2 ^ 32 * val xs))
      |destruct (Z.ltb_spec (val xs) (val ys)),
         (Z.ltb_spec (x + 2 ^ 32 * val xs) (y + 2 ^ 32 * val ys))]; lia.
  - subst ys. destruct (Z.eqb_spec x y) as [->|Hne]; [done|].
    split; [lia|].
    destruct neg;
      [destruct (Z.ltb_spec y x), (Z.ltb_spec (y + 2 ^ 32 * val xs) (x + 2 ^ 32 * val xs))
      |destruct (Z.ltb_spec x y), (Z.ltb_spec (x + 2 ^ 32 * val xs) (y + 2 ^ 32 * val xs))];
      lia.
Qed.

(** Normal magnitudes with the same value are the same vector. *)
Lemma normal_val_inj xs ys : normal xs -> normal ys -> val xs = val ys -> xs = ys.
Proof.
  intros Hx Hy Hv.
  assert (length xs = length ys) as Hlen.
  { apply Nat.le_antisymm; apply normal_length_le; try done; lia. }
  pose proof (lt_loop_order false xs ys Hlen (normal_words _ Hx) (normal_words _ Hy)) as H.
  destruct (lt_loop false xs ys); [by destruct H | done].
Qed.

(** * Multiplication *)

Lemma word_product x y : is_word x -> is_word y -> 0 <= x * y <= (2 ^ 32 - 1) * (2 ^ 32 - 1).
Proof. unfold is_word. intros. nia. Qed.

Lemma words_nil : words [].
Proof. constructor. Qed.

Lemma mul_inner_ok x ys c res :
  is_word x -> words ys -> words res -> 0 <= c < 2 ^ 32 ->
  (length ys <= length res)%nat ->
  val res + x * val ys + c < pow32 (length res) ->
  exists out, mul_inner x ys c res = Ok out /\ length out = length res /\
    words out /\ val out = val res + x * val ys + c.
Proof.
  intros Hx Hys Hres. revert ys c Hys.
  induction Hres as [|r res Hr Hres IH]; intros ys c Hys Hc Hlen Hlt.
  - destruct ys; [|cbn in Hlen; lia]. cbn [mul_inner val length] in *.
    rewrite pow32_0 in Hlt. destruct (Z.eqb_spec c 0) as [->|]; [|lia].
    exists []. repeat split; [constructor | cbn [val]; lia].
  - pose proof (val_nonneg _ Hres) as Hvres. pose proof (val_nonneg _ Hys) as Hvys.
    cbn [length val] in Hlt. rewrite pow32_S in Hlt.
    pose proof (pow32_pos (length res)) as Hpos.
    unfold is_word in Hr.
    destruct Hys as [|y ys Hy Hys]; cbn [mul_inner].
    + destruct (Z.eqb_spec c 0) as [->|Hc0].
      { exists (r :: res). cbn [val]. repeat split; [by constructor | lia]. }
      rewrite Z.mul_0_r. change (u64 0) with 0.
      rewrite u64_small, land_mask32, shiftr_32 by lia.
      destruct (split_word (r + 0 + c)) as (Hs & Hsw & Hsd); [lia|].
      pose proof (div_word_bound (r + 0 + c) 2 ltac:(lia)).
      cbn [val] in Hlt.
      destruct (IH [] ((r + 0 + c) / 2 ^ 32)) as (out & -> & Hol & How & Hov);
        [apply words_nil | lia | cbn; lia | unfold is_word in Hsw; cbn [val]; lia |].
      eexists. split; [reflexivity|]. cbn [length val] in *.
      repeat split; [lia | by constructor | lia].
    + pose proof (word_product x y Hx Hy) as Hxy.
      pose proof (val_nonneg _ Hys) as Hvys'. cbn [val length] in *.
      rewrite (u64_small (x * y)), u64_small, land_mask32, shiftr_32 by lia.
      destruct (split_word (r + x * y + c)) as (Hs & Hsw & Hsd); [lia|].
      pose proof (div_word_bound (r + x * y + c) (2 ^ 32) ltac:(lia)).
      destruct (IH ys ((r + x * y + c) / 2 ^ 32)) as (out & -> & Hol & How & Hov);
        [done | lia | lia | unfold is_word in Hsw; nia |].
      eexists. split; [reflexivity|]. cbn [length val] in *.
      repeat split; [lia | by constructor | lia].
Qed.

Lemma mul_outer_ok xs ys res :
  words xs -> words ys -> words res ->
  length res = (length xs + length ys)%nat ->
  val res < pow32 (length ys) ->
  exists out, mul_outer xs ys res = Ok out /\ length out = length res /\
    words out /\ val out = val res + val xs * val ys.
Proof.
  intros Hxs Hys. revert res.
  induction Hxs as [|x xs Hx Hxs IH]; intros res Hres Hlen Hlt.
  - exists res. cbn [mul_outer val]. repeat split; [done | lia].
  - pose proof (val_bound _ Hys) as Hbys. pose proof (val_nonneg _ Hres) as Hvres.
    pose proof (pow32_pos (length ys)) as Hpos.
    assert (val res + x * val ys < 2 ^ 32 * pow32 (length ys)) as Hrow.
    { unfold is_word in Hx. nia. }
    cbn [mul_outer length] in *.
    destruct (mul_inner_ok x ys 0 res) as (row & -> & Hrl & Hrw & Hrv);
      [done.. | lia | lia | |].
    { eapply Z.lt_le_trans; [rewrite Z.add_0_r; exact Hrow|].
      rewrite <- pow32_S. apply pow32_le. lia. }
    cbn [mbind outcome_bind].
    destruct row as [|r rest]; [cbn in Hrl; lia|].
    inversion Hrw as [|? ? Hr Hrest]; subst. cbn [val length] in *.
    unfold is_word in Hr.
    destruct (IH rest) as (out & -> & Hol & How & Hov); [done | lia | nia |].
    eexists. split; [reflexivity|]. cbn [val length].
    repeat split; [lia | by constructor | lia].
Qed.

Lemma resize_nil n : resize n [] = replicate n 0.
Proof. unfold resize. by rewrite take_nil, Nat.sub_0_r. Qed.

(** [operator*] never leaves the result buffer, and multiplies the values. *)
Lemma mul_ok a b :
  words (digits a) -> words (digits b) ->
  exists r, mul a b = Ok r /\
    val (digits r) = val (digits a) * val (digits b) /\
    words (digits r) /\
    (digits a <> [] \/ digits b <> [] -> normal (digits r)) /\
    (negative a = false -> negative b = false -> negative r = false).
Proof.
  intros Ha Hb. unfold mul. rewrite resize_nil.
  destruct (mul_outer_ok (digits a) (digits b)
              (replicate (length (digits a) + length (digits b)) 0))
    as (out & -> & Hol & How & Hov);
    [done | done | apply words_replicate_0 | by rewrite length_replicate | |].
  { rewrite val_replicate_0. apply pow32_pos. }
  eexists. split; [reflexivity|].
  rewrite digits_trim, negative_trim. cbn [digits negative].
  rewrite val_trim_digits, Hov, val_replicate_0.
  split; [lia|]. split; [by apply words_trim_digits|]. split.
  - intros Hne. apply normal_trim_digits; [done|]. intros ->.
    rewrite length_replicate in Hol. cbn [length] in Hol.
    destruct (digits a), (digits b); cbn [length] in Hol; try lia.
    by destruct Hne.
  - by intros -> ->.
Qed.

(** * Shifts *)

(** [|] on a word shifted out of the way of [c] is an addition. *)
Lemma lor_add_low a c n :
  0 <= n -> 0 <= c < 2 ^ n -> Z.lor (a * 2 ^ n) c = a * 2 ^ n + c.
Proof.
  intros Hn Hc.
  assert (Z.land (a * 2 ^ n) c = 0) as Hland.
  { apply Z.bits_inj'. intros i Hi. rewrite Z.land_spec, Z.bits_0.
    destruct (Z.lt_ge_cases i n) as [Hlt|Hge].
    - by rewrite Z.mul_pow2_bits_low.
    - rewrite <- (Z.mod_small c (2 ^ n)) by done.
      rewrite Z.mod_pow2_bits_high by lia. apply andb_false_r. }
  by rewrite <- Z.lxor_lor, <- Z.add_nocarry_lxor.
Qed.

Lemma pow2_le_word n : 0 <= n < 32 -> 0 < 2 ^ n <= 2 ^ 31.
Proof.
  intros Hn. split; [apply Z.pow_pos_nonneg; lia|].
  apply Z.pow_le_mono_r; lia.
Qed.

Lemma shl_loop_spec bs ds c :
  0 <= bs < 32 -> words ds -> 0 <= c < 2 ^ bs ->
  exists out c', shl_loop bs ds c = (out, c') /\ length out = length ds /\
    words out /\ 0 <= c' < 2 ^ bs /\
    val out + pow32 (length ds) * c' = val ds * 2 ^ bs + c.
Proof.
  intros Hbs Hds. revert c. pose proof (pow2_le_word bs Hbs) as Hp.
  induction Hds as [|d ds Hd Hds IH]; intros c Hc.
  - exists [], c. cbn. rewrite pow32_0. repeat split; [constructor | lia..].
  - unfold is_word in Hd. cbn [shl_loop].
    rewrite Z.shiftl_mul_pow2 by lia.
    assert (0 <= d * 2 ^ bs <= (2 ^ 32 - 1) * 2 ^ bs) as Hprod by nia.
    rewrite u64_small by lia. rewrite lor_add_low by lia.
    rewrite land_mask32, shiftr_32.
    destruct (split_word (d * 2 ^ bs + c)) as (Hs & Hsw & Hsd); [lia|].
    pose proof (div_word_bound (d * 2 ^ bs + c) (2 ^ bs) ltac:(lia)) as Hdiv.
    rewrite u32_small by lia.
    destruct (IH ((d * 2 ^ bs + c) / 2 ^ 32)) as (out & c' & -> & Hol & How & Hc' & Hov);
      [lia|].
    eexists _, c'. split; [reflexivity|]. cbn [length val]. rewrite pow32_S.
    repeat split; [lia | by constructor | lia | lia | nia].
Qed.

(** The length of a normal vector is bounded by its value. *)
Lemma normal_length_bound ds k :
  normal ds -> val ds < pow32 k -> (1 <= k)%nat -> (length ds <= k)%nat.
Proof.
  intros Hn Hlt Hk. destruct (normal_val_lower _ Hn) as [->|Hlow]; [done|].
  destruct (decide (length ds <= k)%nat) as [|Hgt]; [done|].
  assert (pow32 k <= pow32 (length ds - 1)) by (apply pow32_le; lia). lia.
Qed.

Lemma isZero_normal x : normal (digits x) -> isZero x = true <-> val (digits x) = 0.
Proof. intros Hn. apply isZero_val. split; [by apply normal_words | by right]. Qed.

Lemma pow32_pow2 k : pow32 k = 2 ^ (32 * Z.of_nat k).
Proof. apply pow32_shift. Qed.

Lemma shift_split s :
  0 <= s -> Z.quot s 32 = s / 32 /\ Z.rem s 32 = s mod 32 /\
  0 <= s / 32 /\ 0 <= s mod 32 < 32 /\
  2 ^ s = pow32 (Z.to_nat (s / 32)) * 2 ^ (s mod 32).
Proof.
  intros Hs. rewrite Z.quot_div_nonneg, Z.rem_mod_nonneg by lia.
  pose proof (Z.div_mod s 32 ltac:(lia)) as Hdm.
  pose proof (Z.mod_pos_bound s 32 ltac:(lia)) as Hm.
  pose proof (Z.div_pos s 32 Hs ltac:(lia)) as Hd.
  repeat split; try lia.
  rewrite pow32_pow2, <- Z.pow_add_r by lia. f_equal. lia.
Qed.

Lemma zero_test_normal ds :
  normal ds -> match ds with [d] => d =? 0 | _ => false end = (val ds =? 0).
Proof.
  intros Hn. destruct (Z.eqb_spec (val ds) 0) as [H0|Hne].
  - by rewrite (normal_val_0 _ Hn H0).
  - destruct ds as [|d [|d' ds]]; try done. cbn [val] in Hne.
    apply Z.eqb_neq. lia.
Qed.

(** [operator<<] multiplies the magnitude by [2^shift]. *)
Lemma shl_spec x s :
  normal (digits x) -> 0 <= s ->
  normal (digits (shl x s)) /\
  val (digits (shl x s)) = val (digits x) * 2 ^ s /\
  negative (shl x s) = negative x.
Proof.
  intros Hn Hs. unfold shl.
  destruct (isZero x) eqn:Hz; cbn [orb].
  { apply isZero_normal in Hz; [|done]. rewrite Hz. split; [done|]. split; [lia | done]. }
  destruct (Z.eqb_spec s 0) as [->|Hs0].
  { rewrite Z.pow_0_r. split; [done|]. split; [lia | done]. }
  destruct (shift_split s Hs) as (-> & -> & Hq & Hr & Hpow).
  destruct (shl_loop_spec (s mod 32) (digits x) 0) as (out & c & -> & Hol & How & Hc & Hov);
    [lia | by apply normal_words | pose proof (pow2_le_word _ Hr); lia |].
  pose proof (pow2_le_word _ Hr) as Hp.
  set (ws := Z.to_nat (s / 32)) in *.
  set (ds := if c =? 0 then replicate ws 0 ++ out
             else (replicate ws 0 ++ out) ++ [u32 c]).
  assert (words ds /\ val ds = val (digits x) * 2 ^ s /\ ds <> []) as (Hw & Hv & Hne).
  { subst ds. rewrite u32_small by lia.
    destruct (Z.eqb_spec c 0) as [->|Hc0].
    - split; [|split].
      + apply words_app. split; [apply words_replicate_0 | done].
      + rewrite val_app, val_replicate_0, length_replicate, Hpow. lia.
      + intros E. apply (f_equal length) in E.
        rewrite length_app, Hol in E. cbn in E.
        pose proof (normal_length _ Hn). lia.
    - split; [|split].
      + apply words_app. split; [apply words_app; split; [apply words_replicate_0 | done]|].
        apply Forall_singleton. unfold is_word. lia.
      + rewrite val_snoc, val_app, val_replicate_0, length_app, length_replicate,
          pow32_add, Hol, Hpow. nia.
      + intros E. by apply app_nil in E as [_ ?]. }
  rewrite digits_trim, negative_trim. cbn [digits negative].
  rewrite val_trim_digits.
  assert (normal (trim_digits ds)) as Hnt by (by apply normal_trim_digits).
  split; [done|]. split; [done|].
  rewrite (zero_test_normal _ Hnt), val_trim_digits, Hv.
  assert (val (digits x) <> 0) as Hnz.
  { intros H0. apply isZero_normal in H0; [congruence | done]. }
  pose proof (val_nonneg _ (normal_words _ Hn)).
  assert (0 < 2 ^ s) by (apply Z.pow_pos_nonneg; lia).
  assert ((val (digits x) * 2 ^ s =? 0) = false) as -> by (apply Z.eqb_neq; nia).
  apply andb_true_r.
Qed.

Lemma shl_length x s :
  normal (digits x) -> 0 <= s <= 32 ->
  (length (digits (shl x s)) <= length (digits x) + 1)%nat.
Proof.
  intros Hn Hs. destruct (shl_spec x s Hn) as (Hn' & Hv & _); [lia|].
  apply normal_length_bound; [done | | lia].
  rewrite Hv, Nat.add_1_r, pow32_S.
  pose proof (val_bound _ (normal_words _ Hn)) as Hb.
  assert (0 < 2 ^ s <= 2 ^ 32) as Hp.
  { split; [apply Z.pow_pos_nonneg; lia | apply Z.pow_le_mono_r; lia]. }
  nia.
Qed.

Lemma shr_loop_spec bs ds :
  0 <= bs < 32 -> words ds ->
  exists out c, shr_loop bs ds = (out, c) /\ length out = length ds /\
    words out /\ 0 <= c < 2 ^ bs /\ val ds = 2 ^ bs * val out + c.
Proof.
  intros Hbs Hds. pose proof (pow2_le_word bs Hbs) as Hp.
  induction Hds as [|d ds Hd Hds IH].
  - exists [], 0. cbn. repeat split; [constructor | lia..].
  - destruct IH as (out & c & E & Hol & How & Hc & Hov).
    unfold is_word in Hd. cbn [shr_loop]. rewrite E.
    rewrite Z.shiftl_mul_pow2 by lia. rewrite lor_add_low by lia.
    rewrite land_mask32, Z.shiftr_div_pow2 by lia.
    replace (Z.shiftl 1 bs - 1) with (Z.ones bs)
      by (rewrite Z.ones_equiv, Z.shiftl_mul_pow2 by lia; lia).
    rewrite Z.land_ones by lia.
    set (cur := c * 2 ^ 32 + d).
    assert (0 <= cur < 2 ^ bs * 2 ^ 32) as Hcur by (subst cur; nia).
    pose proof (Z.div_mod cur (2 ^ bs) ltac:(lia)) as Hdm.
    pose proof (Z.mod_pos_bound cur (2 ^ bs) ltac:(lia)) as Hm.
    assert (0 <= cur / 2 ^ bs < 2 ^ 32) as Hq.
    { split; [apply Z.div_pos; lia | apply Z.div_lt_upper_bound; lia]. }
    rewrite Z.mod_small by done. rewrite u32_small by lia.
    eexists _, _. split; [reflexivity|]. cbn [length val].
    repeat split; [lia | by constructor | lia | lia |].
    subst cur. nia.
Qed.

Lemma val_drop ds k :
  words ds -> val (drop k ds) = val ds / pow32 k.
Proof.
  intros Hw. rewrite <- (take_drop k ds) at 2. rewrite val_app.
  pose proof (pow32_pos (length (take k ds))) as Hpos.
  assert (words (take k ds)) as Hwt by (by apply Forall_take).
  pose proof (val_bound _ Hwt) as Hb.
  destruct (decide (k <= length ds)%nat) as [Hle|Hgt].
  - rewrite length_take_le in * by done.
    apply Z.div_unique with (r := val (take k ds)); lia.
  - rewrite drop_ge, take_ge by lia. cbn [val]. rewrite Z.mul_0_r, Z.add_0_r.
    symmetry. apply Z.div_small. pose proof (val_bound _ Hw).
    assert (pow32 (length ds) <= pow32 k) by (apply pow32_le; lia). lia.
Qed.

(** [operator>>] undoes a left shift by at most one word. *)
Lemma shr_exact x s r :
  normal (digits x) -> negative x = false -> 0 < s <= 32 ->
  val (digits x) = r * 2 ^ s ->
  normal (digits (shr x s)) /\ val (digits (shr x s)) = r /\
  negative (shr x s) = false.
Proof.
  intros Hn Hneg Hs Hv. unfold shr.
  assert (0 < 2 ^ s) as Hps by (apply Z.pow_pos_nonneg; lia).
  destruct (isZero x) eqn:Hz; cbn [orb].
  { apply isZero_normal in Hz; [|done]. split; [done|]. split; [nia | done]. }
  destruct (Z.eqb_spec s 0) as [->|_]; [lia|].
  assert (val (digits x) <> 0) as Hnz.
  { intros H0. apply isZero_normal in H0; [congruence | done]. }
  pose proof (normal_words _ Hn) as Hw. pose proof (val_bound _ Hw) as Hb.
  pose proof (normal_length _ Hn) as Hlen.
  assert (0 < r) as Hr by nia.
  destruct (shift_split s ltac:(lia)) as (-> & -> & Hq & Hrm & Hpow).
  assert ((s = 32 /\ s / 32 = 1 /\ s mod 32 = 0) \/
          (s < 32 /\ s / 32 = 0 /\ s mod 32 = s)) as Hcase.
  { destruct (decide (s = 32)) as [->|]; [by left | right].
    rewrite Z.div_small, Z.mod_small by lia. lia. }
  assert ((Z.of_nat (length (digits x)) <=? s / 32) = false) as ->.
  { apply Z.leb_gt. destruct Hcase as [(-> & -> & _)|(_ & -> & _)]; [|lia].
    destruct (digits x) as [|d [|d' ds]]; cbn [length] in *; try lia.
    cbn [val] in *. inversion Hw; subst. unfold is_word in *. lia. }
  set (ws := Z.to_nat (s / 32)) in *.
  assert (words (drop ws (digits x))) as Hwd by (by apply Forall_drop).
  destruct (shr_loop_spec (s mod 32) (drop ws (digits x)))
    as (out & c & E & Hol & How & Hc & Hov); [lia | done |].
  rewrite E. cbn [fst]. rewrite digits_trim, negative_trim. cbn [digits negative].
  rewrite val_trim_digits, Hneg.
  assert (val out = r) as Hout.
  { rewrite val_drop in Hov by done.
    assert (0 < 2 ^ (s mod 32)) by (apply Z.pow_pos_nonneg; lia).
    pose proof (pow32_pos ws).
    assert (val (digits x) / pow32 ws = r * 2 ^ (s mod 32)) as Hd.
    { rewrite Hv, Hpow.
      replace (r * (pow32 ws * 2 ^ (s mod 32))) with (r * 2 ^ (s mod 32) * pow32 ws) by lia.
      apply Z.div_mul. lia. }
    rewrite Hd in Hov. nia. }
  split; [|done].
  apply normal_trim_digits; [done|]. intros ->. cbn in Hout. lia.
Qed.

(** * Long division *)

Lemma index_Some v n d : v !! n = Some d -> index v (Z.of_nat n) = Ok d.
Proof.
  intros H. unfold index. destruct (Z.ltb_spec (Z.of_nat n) 0); [lia|].
  by rewrite Nat2Z.id, H.
Qed.

Lemma index_None v n : (length v <= n)%nat -> index v (Z.of_nat n) = Undefined OutOfBounds.
Proof.
  intros H. unfold index. destruct (Z.ltb_spec (Z.of_nat n) 0); [done|].
  rewrite Nat2Z.id. by rewrite (lookup_ge_None_2 v n).
Qed.

Lemma val_split_at ds k d :
  ds !! k = Some d ->
  val ds = val (take k ds) + pow32 k * (d + 2 ^ 32 * val (drop (S k) ds)).
Proof.
  intros H. rewrite <- (take_drop_middle ds k d H) at 1.
  rewrite val_app, length_take_le by (apply lookup_lt_Some in H; lia).
  reflexivity.
Qed.

Lemma val_insert ds k d0 d :
  ds !! k = Some d0 -> val (<[k:=d]> ds) = val ds + (d - d0) * pow32 k.
Proof.
  intros H. pose proof (lookup_lt_Some _ _ _ H) as Hlt.
  rewrite (val_split_at ds k d0 H).
  rewrite (val_split_at (<[k:=d]> ds) k d) by (by apply list_lookup_insert_eq).
  rewrite take_insert_ge, drop_insert_lt by lia. lia.
Qed.

Lemma back_normal ds :
  normal ds -> 0 < val ds ->
  exists t, back ds = Ok t /\ last ds = Some t /\ 0 < t < 2 ^ 32.
Proof.
  intros [Hw [->|(t & Hl & Ht)]] Hpos; [cbn in Hpos; lia|].
  exists t. unfold back. rewrite Hl. repeat split; try done;
    pose proof (words_last _ _ Hw Hl) as Hwt; unfold is_word in Hwt; lia.
Qed.

Lemma digit_at_bounds R D i :
  0 <= R -> 0 < D -> R < D * pow32 (S i) ->
  0 <= digit_at R D i < 2 ^ 32 /\
  D * digit_at R D i * pow32 i <= R < D * (digit_at R D i + 1) * pow32 i.
Proof.
  intros HR HD Hlt. unfold digit_at. rewrite pow32_S in Hlt.
  pose proof (pow32_pos i) as Hp.
  assert (0 < D * pow32 i) as Hpos by nia.
  pose proof (Z.div_mod R (D * pow32 i) ltac:(lia)) as Hdm.
  pose proof (Z.mod_pos_bound R (D * pow32 i) Hpos) as Hm.
  pose proof (Z.div_pos R (D * pow32 i) HR Hpos) as Hq.
  assert (R / (D * pow32 i) < 2 ^ 32).
  { apply Z.div_lt_upper_bound; [done | lia]. }
  repeat split; try lia; nia.
Qed.

(** The window estimate is in bounds exactly when the remainder still has a
    word at index [i + m - 1], and then it is not below the true digit. *)
Lemma estimate_spec R D i :
  magnitude R -> magnitude D -> 0 < val (digits D) ->
  val (digits R) < val (digits D) * pow32 (S i) ->
  let m := length (digits D) in
  ((length (digits R) < i + m)%nat /\
   estimate R D (Z.of_nat m) (Z.of_nat i) = Undefined OutOfBounds) \/
  ((i + m <= length (digits R))%nat /\
   exists qg, estimate R D (Z.of_nat m) (Z.of_nat i) = Ok qg /\
     digit_at (val (digits R)) (val (digits D)) i <= qg <= mask32).
Proof.
  intros [_ HR] [_ HD] HDpos Hlt m.
  pose proof (normal_length _ HD) as Hm. fold m in Hm.
  pose proof (normal_words _ HR) as HwR. pose proof (normal_words _ HD) as HwD.
  unfold estimate.
  replace (Z.of_nat i + Z.of_nat m - 1) with (Z.of_nat (i + m - 1)) by lia.
  replace (Z.of_nat i + Z.of_nat m) with (Z.of_nat (i + m)) by lia.
  destruct (decide (length (digits R) < i + m)%nat) as [Hoob|Hin]; [left | right].
  { split; [done|].
    destruct (Z.ltb_spec (Z.of_nat (i + m)) (Z.of_nat (length (digits R)))); [lia|].
    cbn [mbind outcome_bind]. by rewrite index_None by lia. }
  split; [lia|].
  set (k := (i + m - 1)%nat).
  assert (k < length (digits R))%nat as Hk by lia.
  destruct (lookup_lt_is_Some_2 _ _ Hk) as [r_lo Hlo].
  (* the remainder has at most one word above index k *)
  assert (length (digits R) <= S (S k))%nat as Hlen.
  { apply normal_length_bound; [done | | lia].
    pose proof (val_bound _ HwD) as HbD. fold m in HbD.
    replace (S (S k)) with (m + S i)%nat by lia. rewrite pow32_add.
    pose proof (pow32_pos (S i)). nia. }
  assert (exists r_hi,
    (if Z.of_nat (i + m) <? Z.of_nat (length (digits R))
     then index (digits R) (Z.of_nat (i + m)) else Ok 0) = Ok r_hi /\
    is_word r_hi /\ val (drop (S k) (digits R)) = r_hi) as (r_hi & -> & Hwhi & Hhi).
  { replace (i + m)%nat with (S k) by lia.
    destruct (Z.ltb_spec (Z.of_nat (S k)) (Z.of_nat (length (digits R)))) as [Hl|Hl].
    - destruct (lookup_lt_is_Some_2 (digits R) (S k) ltac:(lia)) as [r_hi Hh].
      exists r_hi. rewrite (index_Some _ _ _ Hh). split; [done|].
      split; [exact (Forall_lookup_1 _ _ _ _ HwR Hh)|].
      rewrite (drop_S _ _ _ Hh), drop_ge by lia. cbn [val]. lia.
    - exists 0. split; [done|]. split; [by compute|]. by rewrite drop_ge by lia. }
  cbn [mbind outcome_bind]. rewrite (index_Some _ _ _ Hlo). cbn [mbind outcome_bind].
  destruct (back_normal _ HD HDpos) as (top & -> & Hlast & Htop).
  cbn [mbind outcome_bind].
  destruct (Z.eqb_spec top 0) as [|_]; [lia|]. cbn [mbind outcome_bind].
  assert (is_word r_lo) as Hwlo by exact (Forall_lookup_1 _ _ _ _ HwR Hlo).
  unfold is_word in Hwlo, Hwhi.
  rewrite Z.shiftl_mul_pow2 by lia.
  rewrite (u64_small (r_hi * 2 ^ 32)), u64_small by lia.
  set (W := r_hi * 2 ^ 32 + r_lo).
  eexists. split; [reflexivity|].
  pose proof (val_nonneg _ HwR) as HR0.
  destruct (digit_at_bounds _ _ i HR0 HDpos Hlt) as (Hq & Hqlo & Hqhi).
  set (q := digit_at (val (digits R)) (val (digits D)) i) in *.
  assert (q <= W / top) as Hest.
  { apply Z.div_le_lower_bound; [lia|].
    pose proof (val_split_at _ _ _ Hlo) as Hsplit. rewrite Hhi in Hsplit.
    assert (words (take k (digits R))) as Hwt by (by apply Forall_take).
    pose proof (val_bound _ Hwt) as Hbt. rewrite length_take_le in Hbt by lia.
    pose proof (val_top _ _ HwD Hlast) as [Htl _]. fold m in Htl.
    assert (pow32 k = pow32 (m - 1) * pow32 i) as Hpk.
    { rewrite <- pow32_add. f_equal. lia. }
    pose proof (pow32_pos (m - 1)) as Hp1. pose proof (pow32_pos i) as Hp2.
    pose proof (pow32_pos k) as Hp3.
    assert (top * q * pow32 k < (W + 1) * pow32 k) as Hcmp.
    { subst W. nia. }
    assert (top * q < W + 1); [|lia].
    apply (Z.mul_lt_mono_pos_r (pow32 k)); done. }
  unfold mask32 in *.
  destruct (Z.ltb_spec 4294967295 (W / top)); lia.
Qed.

Lemma correction_fuel_spec : Z.of_nat correction_fuel = 2 ^ 32.
Proof. unfold correction_fuel. rewrite Z2Nat.id; lia. Qed.

#[global] Opaque correction_fuel.

Lemma bind_Ok {A B} (a : A) (k : A -> outcome B) : (Ok a ≫= k) = k a.
Proof. reflexivity. Qed.

Lemma int_mul_small i :
  0 <= 32 * i < 2 ^ 31 -> int_mul 32 i = Ok (32 * i).
Proof.
  intros H. unfold int_mul.
  destruct (Z.leb_spec (- 2 ^ 31) (32 * i)); [|lia].
  destruct (Z.ltb_spec (32 * i) (2 ^ 31)); [done | lia].
Qed.

(** The trial product [divisor * qguess], moved to word position [i]. *)
Lemma trial_spec D q i :
  magnitude D -> 0 <= q < 2 ^ 32 -> 0 <= 32 * Z.of_nat i < 2 ^ 31 ->
  exists t, mul D (of_uint32 (u32 q)) = Ok t /\
    magnitude (shl t (32 * Z.of_nat i)) /\
    val (digits (shl t (32 * Z.of_nat i))) = val (digits D) * q * pow32 i.
Proof.
  intros [HDn HD] Hq Hi. rewrite u32_small by done.
  assert (words (digits (of_uint32 q)) /\ val (digits (of_uint32 q)) = q) as [Hw Hv].
  { unfold of_uint32. cbn [digits]. destruct (Z.eqb_spec q 0) as [->|].
    - split; [constructor | done].
    - split; [by apply Forall_singleton | cbn [val]; lia]. }
  destruct (mul_ok D (of_uint32 q)) as (t & -> & Htv & Htw & Htn & Htneg);
    [by apply normal_words | done |].
  exists t. split; [done|].
  destruct (shl_spec t (32 * Z.of_nat i)) as (Hsn & Hsv & Hsneg);
    [apply Htn; left; by apply normal_nonempty | lia |].
  split; [split; [rewrite Hsneg; by apply Htneg | done]|].
  rewrite Hsv, Htv, Hv, pow32_pow2. lia.
Qed.

(** The correction loop stops at the true digit, after [qguess - q] turns. *)
Lemma correct_loop_spec fuel R D i q :
  magnitude R -> magnitude D -> 0 <= 32 * Z.of_nat i < 2 ^ 31 -> 0 <= q ->
  val (digits D) * q * pow32 i <= val (digits R)
    < val (digits D) * (q + 1) * pow32 i ->
  forall qg mult,
    q <= qg <= mask32 -> magnitude mult ->
    val (digits mult) = val (digits D) * qg * pow32 i ->
    (Z.to_nat (qg - q) < fuel)%nat ->
    exists mult', correct_loop fuel R D (Z.of_nat i) qg mult = Ok (q, mult') /\
      magnitude mult' /\ val (digits mult') = val (digits D) * q * pow32 i.
Proof.
  intros HR HD Hi Hq0 Hq. unfold mask32.
  induction fuel as [|fuel IH]; intros qg mult Hqg Hm Hmv Hfuel; [lia|].
  cbn [correct_loop]. destruct HR as [HRneg HRn]. destruct (Hm) as [Hmneg Hmn].
  rewrite lt_nonneg by done. rewrite Hmv.
  pose proof (pow32_pos i) as Hp.
  assert (0 <= val (digits D) * pow32 i) as HDP.
  { destruct HD as [_ HD]. pose proof (val_nonneg _ (normal_words _ HD)). nia. }
  destruct (Z.ltb_spec (val (digits R)) (val (digits D) * qg * pow32 i)) as [Hlt|Hge].
  - assert (q < qg) as Hgt by nia.
    rewrite u64_small by lia.
    destruct (trial_spec D (qg - 1) i HD ltac:(lia) Hi) as (t & -> & Htm & Htv).
    rewrite bind_Ok, int_mul_small, bind_Ok by done.
    apply IH; [lia | done | done | lia].
  - assert (qg = q) as -> by nia. by exists mult.
Qed.

Lemma store_ok v i d :
  (i < length v)%nat -> store v (Z.of_nat i) d = Ok (<[i:=d]> v).
Proof.
  intros H. unfold store.
  destruct (Z.leb_spec 0 (Z.of_nat i)); [|lia].
  destruct (Z.ltb_spec (Z.of_nat i) (Z.of_nat (length v))); [|lia].
  by rewrite Nat2Z.id.
Qed.

Lemma divmod_step_spec fuel A D i Q R :
  magnitude D -> 0 < val (digits D) -> loop_inv A D (S i) Q R ->
  0 <= 32 * Z.of_nat i < 2 ^ 31 -> 2 ^ 32 <= Z.of_nat fuel ->
  ((length (digits R) < i + length (digits D))%nat /\
   divmod_step fuel D (Z.of_nat (length (digits D))) (Z.of_nat i) Q R
     = Undefined OutOfBounds) \/
  ((i + length (digits D) <= length (digits R))%nat /\
   exists Q' R',
     divmod_step fuel D (Z.of_nat (length (digits D))) (Z.of_nat i) Q R
       = Ok (Q', R') /\
     loop_inv A D i Q' R' /\ negative Q' = negative Q /\
     length (digits Q') = length (digits Q) /\
     val (digits R') =
       val (digits R)
       - val (digits D) * digit_at (val (digits R)) (val (digits D)) i * pow32 i).
Proof.
  intros HD HDpos (HR & HQw & HQl & HQz & HA & Hlt) Hi Hfuel.
  unfold divmod_step.
  destruct (estimate_spec R D i HR HD HDpos Hlt) as [[Hoob ->]|(Hin & qg & -> & Hqg)];
    [by left | right].
  split; [done|]. rewrite bind_Ok.
  assert (0 <= val (digits R)) as HR0.
  { destruct HR as [_ HR]. apply val_nonneg. by apply normal_words. }
  destruct (digit_at_bounds _ _ i HR0 HDpos Hlt) as (Hq & Hqlo & Hqhi).
  set (q := digit_at (val (digits R)) (val (digits D)) i) in *.
  unfold mask32 in Hqg.
  destruct (trial_spec D qg i HD ltac:(lia) Hi) as (t & -> & Htm & Htv).
  rewrite bind_Ok, int_mul_small, bind_Ok by done.
  destruct (correct_loop_spec fuel R D i q HR HD Hi ltac:(lia) ltac:(lia) qg
              (shl t (32 * Z.of_nat i)))
    as (mult & -> & Hm & Hmv); [unfold mask32; lia | done | done | lia |].
  rewrite bind_Ok. cbn beta iota.
  rewrite u32_small by lia. rewrite store_ok by lia. rewrite bind_Ok.
  destruct fuel as [|fuel]; [lia|].
  destruct HR as [HRneg HRn]. destruct Hm as [Hmneg Hmn].
  destruct (sub_nonneg fuel R mult HRneg Hmneg HRn Hmn ltac:(lia))
    as (R' & -> & HR'neg & HR'n & HR'v).
  rewrite bind_Ok. eexists _, R'. split; [reflexivity|]. cbn [digits negative].
  assert (digits Q !! i = Some 0) as HQi.
  { apply (f_equal (fun l => l !! i)) in HQz.
    rewrite lookup_take_lt, lookup_replicate_2 in HQz by lia. done. }
  unfold loop_inv. cbn [digits negative].
  split; [|split; [done | split; [by rewrite length_insert | lia]]].
  split; [done|]. split; [by apply Forall_insert|].
  split; [rewrite length_insert; lia|].
  split.
  { rewrite take_insert_ge by lia.
    apply (f_equal (take i)) in HQz.
    rewrite take_take, take_replicate in HQz.
    by rewrite !Nat.min_l in HQz by lia. }
  rewrite (val_insert _ _ 0 q HQi), HR'v, Hmv. split; [lia|].
  lia.
Qed.

Lemma divmod_loop_spec fuel A D k :
  magnitude D -> 0 < val (digits D) ->
  32 * Z.of_nat k <= 2 ^ 31 -> 2 ^ 32 <= Z.of_nat fuel ->
  forall Q R, loop_inv A D k Q R ->
  divmod_loop fuel D (Z.of_nat (length (digits D))) k Q R
    = Undefined OutOfBounds \/
  exists Q' R',
    divmod_loop fuel D (Z.of_nat (length (digits D))) k Q R = Ok (Q', R') /\
    loop_inv A D 0 Q' R' /\ negative Q' = negative Q /\
    length (digits Q') = length (digits Q).
Proof.
  intros HD HDpos Hk Hfuel.
  induction k as [|i IH]; intros Q R Hinv.
  - right. by exists Q, R.
  - cbn [divmod_loop].
    destruct (divmod_step_spec fuel A D i Q R HD HDpos Hinv ltac:(lia) Hfuel)
      as [[_ ->]|(_ & Q1 & R1 & -> & Hinv1 & Hneg1 & Hlen1 & _)]; [by left|].
    rewrite bind_Ok. cbn beta iota.
    destruct (IH ltac:(lia) Q1 R1 Hinv1) as [->|(Q2 & R2 & -> & Hinv2 & Hneg2 & Hlen2)];
      [by left | right].
    exists Q2, R2. split; [done|]. split; [done|]. split; congruence.
Qed.

(** While the quotient digits are zero the remainder is not touched, so a
    quotient of a single word is found without any read outside the
    remainder. *)
Lemma divmod_loop_one_word fuel A D k :
  magnitude D -> 0 < val (digits D) ->
  32 * Z.of_nat k <= 2 ^ 31 -> 2 ^ 32 <= Z.of_nat fuel ->
  forall Q R, loop_inv A D k Q R ->
  val (digits R) < val (digits D) * pow32 1 ->
  (k - 1 + length (digits D) <= length (digits R))%nat ->
  exists Q' R',
    divmod_loop fuel D (Z.of_nat (length (digits D))) k Q R = Ok (Q', R') /\
    loop_inv A D 0 Q' R' /\ negative Q' = negative Q /\
    length (digits Q') = length (digits Q).
Proof.
  intros HD HDpos Hk Hfuel.
  induction k as [|i IH]; intros Q R Hinv Hone Hlen.
  - by exists Q, R.
  - cbn [divmod_loop].
    destruct (divmod_step_spec fuel A D i Q R HD HDpos Hinv ltac:(lia) Hfuel)
      as [[Hoob _]|(_ & Q1 & R1 & -> & Hinv1 & Hneg1 & Hlen1 & Hv1)]; [lia|].
    rewrite bind_Ok. cbn beta iota.
    destruct i as [|j].
    { cbn [divmod_loop]. exists Q1, R1. done. }
    assert (R1 = R) as ->.
    { assert (digit_at (val (digits R)) (val (digits D)) (S j) = 0) as Hd0.
      { unfold digit_at. apply Z.div_small.
        destruct Hinv as ([_ HRn] & _).
        pose proof (val_nonneg _ (normal_words _ HRn)).
        assert (pow32 1 <= pow32 (S j)) by (apply pow32_le; lia). nia. }
      rewrite Hd0 in Hv1.
      destruct Hinv as ([HRneg HRn] & _). destruct Hinv1 as ([HR1neg HR1n] & _).
      assert (digits R1 = digits R) as Hd
        by (apply normal_val_inj; [done..|lia]).
      destruct R1 as [d1 s1], R as [d s]. cbn in *. by subst. }
    destruct (IH ltac:(lia) Q1 R Hinv1 Hone ltac:(lia))
      as (Q2 & R2 & -> & Hinv2 & Hneg2 & Hlen2).
    exists Q2, R2. split; [done|]. split; [done|]. split; congruence.
Qed.

(** Before the turn for position [k - 1] the remainder is the residue of the
    shifted dividend modulo [divisor * B^k]. *)
Lemma loop_inv_residue A D k Q R :
  0 < val (digits D) -> loop_inv A D k Q R ->
  val (digits R) = A mod (val (digits D) * pow32 k).
Proof.
  intros HDpos ([_ HRn] & HQw & HQl & HQz & HA & Hlt).
  pose proof (val_nonneg _ (normal_words _ HRn)) as HR0.
  assert (val (digits Q) = pow32 k * val (drop k (digits Q))) as HQv.
  { rewrite <- (take_drop k (digits Q)) at 1.
    rewrite val_app, HQz, val_replicate_0, length_replicate. lia. }
  apply Z.mod_unique with (q := val (drop k (digits Q))); [lia|].
  rewrite HA, HQv. lia.
Qed.

Lemma normal_short ds k :
  normal ds -> (length ds < k)%nat <-> (2 <= k)%nat /\ val ds < pow32 (k - 1).
Proof.
  intros Hn. pose proof (normal_length _ Hn) as Hl. split.
  - intros Hlt. split; [lia|].
    pose proof (val_bound _ (normal_words _ Hn)) as Hb.
    assert (pow32 (length ds) <= pow32 (k - 1)) by (apply pow32_le; lia). lia.
  - intros [Hk Hv].
    pose proof (normal_length_bound ds (k - 1) Hn Hv ltac:(lia)). lia.
Qed.

(** The loop stops at the read outside the remainder exactly when one of
    the residues it meets is short. *)
Lemma divmod_loop_oob_iff fuel A D k :
  magnitude D -> 0 < val (digits D) ->
  32 * Z.of_nat k <= 2 ^ 31 -> 2 ^ 32 <= Z.of_nat fuel ->
  forall Q R, loop_inv A D k Q R ->
  divmod_loop fuel D (Z.of_nat (length (digits D))) k Q R
    = Undefined OutOfBounds <->
  exists i, (i < k)%nat /\ short_residue A (val (digits D)) (length (digits D)) i.
Proof.
  intros HD HDpos Hk Hfuel.
  induction k as [|i IH]; intros Q R Hinv.
  - cbn [divmod_loop]. split; [done|]. intros (j & Hj & _). lia.
  - cbn [divmod_loop].
    pose proof (loop_inv_residue A D (S i) Q R HDpos Hinv) as Hres.
    assert (normal (digits R)) as HRn by (by destruct Hinv as ([_ ?] & _)).
    pose proof (normal_short (digits R) (i + length (digits D)) HRn) as Hshort.
    rewrite Hres in Hshort.
    destruct (divmod_step_spec fuel A D i Q R HD HDpos Hinv ltac:(lia) Hfuel)
      as [[Hoob ->]|(Hin & Q1 & R1 & -> & Hinv1 & _)].
    + split; [intros _|done]. exists i. split; [lia|]. by apply Hshort.
    + rewrite bind_Ok. cbn beta iota. rewrite (IH ltac:(lia) Q1 R1 Hinv1).
      split.
      * intros (j & Hj & Hs). exists j. split; [lia | done].
      * intros (j & Hj & Hs). destruct (decide (j = i)) as [->|Hne].
        -- apply Hshort in Hs. lia.
        -- exists j. split; [lia | done].
Qed.

(** * [divmod] as a whole *)

Lemma divmod_norm_spec D :
  normal (digits D) -> 0 < val (digits D) ->
  exists norm, divmod_norm D = Ok norm /\ 0 < norm <= 32.
Proof.
  intros HD Hpos. destruct (back_normal _ HD Hpos) as (top & Hb & _ & Htop).
  unfold divmod_norm. rewrite Hb, bind_Ok. unfold builtin_clz.
  destruct (Z.eqb_spec top 0) as [|_]; [lia|]. rewrite bind_Ok.
  eexists. split; [reflexivity|].
  pose proof (Z.log2_nonneg top).
  assert (Z.log2 top < 32) by (apply Z.log2_lt_pow2; lia). lia.
Qed.

Lemma normal_wf x : normal (digits x) -> wf x.
Proof. intros H. split; [by apply normal_words | by right]. Qed.

Lemma wf_of_int_0 : wf (of_int 0).
Proof. split; [constructor | by left]. Qed.

Lemma to_int_small z : 0 <= z < 2 ^ 31 -> to_int (u64 z) = z.
Proof.
  intros Hz. unfold to_int, u64. rewrite (Z.mod_small z) by lia.
  rewrite Z.mod_small; lia.
Qed.

Lemma vector_resize_small n v :
  0 <= n < 2 ^ 31 -> vector_resize (u64 n) v = Ok (resize (Z.to_nat n) v).
Proof.
  intros Hn. unfold vector_resize, u64, max_size. rewrite Z.mod_small by lia.
  destruct (Z.ltb_spec (2 ^ 61 - 1) n) as [|_]; [lia | done].
Qed.

(** The long division proper: [divmod] on a dividend that is not below the
    divisor runs [divmod_loop] on the shifted operands and returns what the
    loop leaves, shifted back. *)
Lemma divmod_unfold fuel a b :
  wf a -> wf b -> isZero b = false -> isZero a = false ->
  val (digits b) <= val (digits a) ->
  Z.of_nat (length (digits a)) < 2 ^ 26 ->
  exists norm,
    divmod_norm (abs b) = Ok norm /\ 0 < norm <= 32 /\
    let D := shl (abs b) norm in
    let R0 := shl (abs a) norm in
    let k := S (length (digits R0) - length (digits D)) in
    let Q0 := mkBigInt (replicate k 0) false in
    magnitude D /\ 0 < val (digits D) /\ 32 * Z.of_nat k <= 2 ^ 31 /\
    loop_inv (val (digits R0)) D k Q0 R0 /\
    (length (digits D) <= length (digits R0))%nat /\
    val (digits D) = val (digits b) * 2 ^ norm /\
    val (digits R0) = val (digits a) * 2 ^ norm /\
    divmod fuel a b =
      '(quotient, remainder) ←
        divmod_loop fuel D (Z.of_nat (length (digits D))) k Q0 R0;
      Ok (trim (mkBigInt (digits (trim quotient))
                  (negb (Bool.eqb (negative a) (negative b)))),
          trim (mkBigInt (digits (shr remainder norm)) (negative a))).
Proof.
  intros Hwa Hwb Hzb Hza Hge Hsmall.
  destruct (isZero_false_normal b Hwb Hzb) as [Hnb Hbpos].
  destruct (isZero_false_normal a Hwa Hza) as [Hna Hapos].
  destruct (divmod_norm_spec (abs b)) as (norm & Hn & Hnorm); [done..|].
  exists norm. split; [done|]. split; [done|].
  unfold divmod. rewrite Hzb, Hza, Hn.
  rewrite lt_nonneg by done. cbn [abs digits].
  destruct (Z.ltb_spec (val (digits a)) (val (digits b))) as [Hlt|_]; [lia|].
  rewrite bind_Ok. destruct (Z.eqb_spec norm 0) as [|_]; [lia|].
  destruct (shl_spec (abs b) norm Hnb ltac:(lia)) as (HDn & HDv & HDneg).
  destruct (shl_spec (abs a) norm Hna ltac:(lia)) as (HRn & HRv & HRneg).
  pose proof (shl_length (abs a) norm Hna ltac:(lia)) as HRlen.
  cbn [abs digits negative] in HDv, HRv, HRlen.
  cbn [abs negative] in HDneg, HRneg.
  fold (abs a). fold (abs b).
  set (D := shl (abs b) norm) in *. set (R0 := shl (abs a) norm) in *.
  assert (0 < 2 ^ norm) as Hp by (apply Z.pow_pos_nonneg; lia).
  assert (0 < val (digits D)) as HDpos by nia.
  assert (val (digits D) <= val (digits R0)) as Hle by nia.
  pose proof (normal_length_le _ _ HDn HRn Hle) as Hmn.
  pose proof (normal_length _ HDn) as Hm1.
  set (n := length (digits R0)) in *. set (m := length (digits D)) in *.
  rewrite vector_resize_small by lia. rewrite bind_Ok.
  rewrite to_int_small by lia.
  replace (Z.to_nat (Z.of_nat n - Z.of_nat m + 1)) with (S (n - m)) by lia.
  change (digits (of_int 0)) with (@nil Z). change (negative (of_int 0)) with false.
  rewrite resize_nil.
  cbv zeta.
  set (Q0 := mkBigInt (replicate (S (n - m)) 0) false).
  split; [done|]. split; [done|]. split; [lia|].
  split.
  { split; [done|]. cbn [Q0 digits]. rewrite length_replicate.
    split; [apply words_replicate_0|]. split; [done|].
    split; [by rewrite take_ge by (rewrite length_replicate; lia)|].
    rewrite val_replicate_0. split; [lia|].
    pose proof (val_bound _ (normal_words _ HRn)) as HbR. fold n in HbR.
    destruct (normal_val_lower _ HDn) as [E|Hlow]; [rewrite E in HDpos; cbn in HDpos; lia|].
    fold m in Hlow.
    assert (pow32 n = pow32 (m - 1) * pow32 (S (n - m))) as Hpn.
    { rewrite <- pow32_add. f_equal. lia. }
    pose proof (pow32_pos (S (n - m))). nia. }
  split; [done|]. split; [done|]. split; [done|].
  replace (Z.to_nat (Z.of_nat n - Z.of_nat m + 1)) with (S (n - m)) by lia.
  reflexivity.
Qed.

Lemma divmod_long fuel a b :
  wf a -> wf b -> isZero b = false -> isZero a = false ->
  val (digits b) <= val (digits a) ->
  Z.of_nat (length (digits a)) < 2 ^ 26 ->
  exists norm,
    divmod_norm (abs b) = Ok norm /\ 0 < norm <= 32 /\
    let D := shl (abs b) norm in
    let R0 := shl (abs a) norm in
    let k := S (length (digits R0) - length (digits D)) in
    let Q0 := mkBigInt (replicate k 0) false in
    magnitude D /\ 0 < val (digits D) /\ 32 * Z.of_nat k <= 2 ^ 31 /\
    loop_inv (val (digits R0)) D k Q0 R0 /\
    (length (digits D) <= length (digits R0))%nat /\
    val (digits D) = val (digits b) * 2 ^ norm /\
    val (digits R0) = val (digits a) * 2 ^ norm /\
    (divmod_loop fuel D (Z.of_nat (length (digits D))) k Q0 R0
       = Undefined OutOfBounds ->
     divmod fuel a b = Undefined OutOfBounds) /\
    (forall Q R,
       divmod_loop fuel D (Z.of_nat (length (digits D))) k Q0 R0 = Ok (Q, R) ->
       loop_inv (val (digits R0)) D 0 Q R ->
       length (digits Q) = length (digits Q0) ->
       exists q r, divmod fuel a b = Ok (q, r) /\ divmod_post a b q r).
Proof.
  intros Hwa Hwb Hzb Hza Hge Hsmall.
  destruct (isZero_false_normal b Hwb Hzb) as [_ Hbpos].
  destruct (divmod_unfold fuel a b Hwa Hwb Hzb Hza Hge Hsmall)
    as (norm & Hn & Hnorm & HD & HDpos & Hk & Hinv & Hlen & HDv & HRv & Heq).
  exists norm. split; [done|]. split; [done|]. cbv zeta.
  split; [done|]. split; [done|]. split; [done|]. split; [done|].
  split; [done|]. split; [done|]. split; [done|]. rewrite Heq. clear Heq.
  split; [by intros ->|].
  intros Q R -> Hinv' HQlen.
  rewrite bind_Ok. cbn beta iota.
  assert (0 < 2 ^ norm) as Hp by (apply Z.pow_pos_nonneg; lia).
  destruct Hinv' as ([HRneg' HRn'] & HQw & _ & _ & HA & HRlt).
  rewrite pow32_0, Z.mul_1_r in HRlt.
  pose proof (val_nonneg _ (normal_words _ HRn')) as HR0.
  (* the quotient and the remainder of the shifted numbers *)
  assert (val (digits Q) = val (digits a) / val (digits b)) as HQv.
  { rewrite <- (Z.div_mul_cancel_r (val (digits a)) (val (digits b)) (2 ^ norm)) by lia.
    rewrite <- HRv, <- HDv.
    apply Z.div_unique with (r := val (digits R)); lia. }
  assert (val (digits R) = val (digits a) mod val (digits b) * 2 ^ norm) as HRv'.
  { rewrite <- Z.mul_mod_distr_r by lia. rewrite <- HRv, <- HDv.
    apply Z.mod_unique with (q := val (digits Q)); lia. }
  destruct (shr_exact R norm _ HRn' HRneg' Hnorm HRv') as (HSn & HSv & HSneg).
  assert (normal (trim_digits (digits Q))) as HQn.
  { apply normal_trim_digits; [done|]. intros E. rewrite E in HQlen.
    cbn [digits] in HQlen. rewrite length_replicate in HQlen. cbn in HQlen. lia. }
  eexists _, _. split; [reflexivity|]. unfold divmod_post.
  rewrite !digits_trim, !negative_trim. cbn [digits negative].
  rewrite ?digits_trim. rewrite !(trim_digits_normal _ HQn), !(trim_digits_normal _ HSn).
  rewrite (zero_test_normal _ HQn), (zero_test_normal _ HSn).
  rewrite val_trim_digits.
  split_and!; try done; apply normal_wf; rewrite digits_trim; cbn [digits];
    by rewrite trim_digits_normal.
Qed.

(** The two cases that [divmod] answers before any division. *)
Lemma divmod_early fuel a b :
  wf a -> wf b -> isZero b = false ->
  isZero a = true \/ val (digits a) < val (digits b) ->
  exists q r, divmod fuel a b = Ok (q, r) /\ divmod_post a b q r.
Proof.
  intros Hwa Hwb Hzb Hearly. unfold divmod. rewrite Hzb.
  destruct (isZero_false_normal b Hwb Hzb) as [Hnb Hbpos].
  destruct (isZero a) eqn:Hza.
  { exists (of_int 0), (of_int 0). split; [done|].
    apply isZero_val in Hza; [|done]. unfold divmod_post. rewrite Hza.
    change (val (digits (of_int 0))) with 0. change (negative (of_int 0)) with false.
    rewrite Z.div_0_l, Z.mod_0_l by lia. rewrite !andb_false_r.
    split_and!; try done; apply wf_of_int_0. }
  destruct Hearly as [|Hlt]; [done|].
  destruct (isZero_false_normal a Hwa Hza) as [Hna Hapos].
  rewrite lt_nonneg by done. cbn [abs digits].
  destruct (Z.ltb_spec (val (digits a)) (val (digits b))) as [_|Hge]; [|lia].
  exists (of_int 0), a. split; [done|]. unfold divmod_post.
  change (val (digits (of_int 0))) with 0. change (negative (of_int 0)) with false.
  rewrite Z.div_small, Z.mod_small by lia. rewrite andb_false_r.
  assert ((val (digits a) =? 0) = false) as -> by (apply Z.eqb_neq; lia).
  rewrite andb_true_r. split_and!; try done; apply wf_of_int_0.
Qed.

Lemma divmod_spec fuel a b :
  wf a -> wf b -> isZero b = false ->
  Z.of_nat (length (digits a)) < 2 ^ 26 ->
  2 ^ 32 <= Z.of_nat fuel ->
  divmod fuel a b = Undefined OutOfBounds \/
  exists q r, divmod fuel a b = Ok (q, r) /\ divmod_post a b q r.
Proof.
  intros Hwa Hwb Hzb Hsmall Hfuel.
  destruct (isZero a) eqn:Hza; [right; apply divmod_early; auto|].
  destruct (Z.lt_ge_cases (val (digits a)) (val (digits b))) as [Hlt|Hge];
    [right; apply divmod_early; auto|].
  destruct (divmod_long fuel a b Hwa Hwb Hzb Hza Hge Hsmall)
    as (norm & _ & _ & HD & HDpos & Hk & Hinv & _ & _ & _ & Hoob & Hok).
  destruct (divmod_loop_spec fuel _ _ _ HD HDpos Hk Hfuel _ _ Hinv)
    as [E|(Q & R & E & Hinv' & _ & HQlen)]; [left; auto | right; eauto].
Qed.

(** A quotient of one word is computed without a read outside the
    remainder. *)
Lemma divmod_one_word fuel a b :
  wf a -> wf b -> isZero b = false ->
  Z.of_nat (length (digits a)) < 2 ^ 26 ->
  2 ^ 32 <= Z.of_nat fuel ->
  val (digits a) < val (digits b) * 2 ^ 32 ->
  exists q r, divmod fuel a b = Ok (q, r) /\ divmod_post a b q r.
Proof.
  intros Hwa Hwb Hzb Hsmall Hfuel Hone.
  destruct (isZero a) eqn:Hza; [apply divmod_early; auto|].
  destruct (Z.lt_ge_cases (val (digits a)) (val (digits b))) as [Hlt|Hge];
    [apply divmod_early; auto|].
  destruct (divmod_long fuel a b Hwa Hwb Hzb Hza Hge Hsmall)
    as (norm & _ & Hnorm & HD & HDpos & Hk & Hinv & Hlen & HDv & HRv & _ & Hok).
  assert (0 < 2 ^ norm) as Hp by (apply Z.pow_pos_nonneg; lia).
  destruct (divmod_loop_one_word fuel _ _ _ HD HDpos Hk Hfuel _ _ Hinv)
    as (Q & R & E & Hinv' & _ & HQlen); [|lia|eauto].
  rewrite pow32_S, pow32_0, HRv, HDv. nia.
Qed.

(** * The specification's claims about division *)

Lemma fuel_enough fuel : (correction_fuel <= fuel)%nat -> 2 ^ 32 <= Z.of_nat fuel.
Proof. intros H. rewrite <- correction_fuel_spec. by apply Nat2Z.inj_le. Qed.

Lemma isZero_val_eqb x : wf x -> isZero x = (val (digits x) =? 0).
Proof.
  intros Hwf. pose proof (isZero_val x Hwf) as Hiff.
  destruct (isZero x), (Z.eqb_spec (val (digits x)) 0); try done.
  - by destruct Hiff as [H _]; specialize (H eq_refl).
  - by destruct Hiff as [_ H]; specialize (H ltac:(done)).
Qed.

(** The signed reading of [divmod_post]. *)
Lemma divmod_post_signed a b q r :
  wf a -> wf b -> 0 < val (digits b) -> divmod_post a b q r ->
  value b * value q + value r = value a /\
  Z.abs (value r) < Z.abs (value b) /\
  negative q = negb (Bool.eqb (negative a) (negative b)) && negb (isZero q) /\
  negative r = negative a && negb (isZero r) /\ wf q /\ wf r.
Proof.
  intros Hwa Hwb Hb (Hq & Hr & Hqn & Hrn & Hwq & Hwr).
  rewrite (isZero_val_eqb q Hwq), (isZero_val_eqb r Hwr).
  split_and!; try done.
  - pose proof (Z.div_mod (val (digits a)) (val (digits b)) ltac:(lia)) as Hdm.
    unfold value. rewrite Hqn, Hrn, Hq, Hr.
    destruct (negative a), (negative b),
      (Z.eqb_spec (val (digits a) / val (digits b)) 0) as [E1|E1],
      (Z.eqb_spec (val (digits a) mod val (digits b)) 0) as [E2|E2];
      cbn [Bool.eqb negb andb]; rewrite ?E1, ?E2 in *; lia.
  - pose proof (Z.mod_pos_bound (val (digits a)) (val (digits b)) Hb) as Hm.
    unfold value. rewrite Hr. destruct (negative r), (negative b); lia.
Qed.

(** C1, as amended.  For well-formed operands with a non-zero divisor,
    [divmod] (and with it [operator/] and [operator%]), given fuel for its
    correction loops, either performs the out-of-bounds read of the remainder
    or returns [q] and [r] whose integer values satisfy [b * q + r = a] and
    [|r| < |b|]; the sign flag of [q] is the XOR of the operands' flags when
    [q] is not zero, the flag of [r] is the dividend's when [r] is not zero,
    and a zero result has its flag cleared. *)
Theorem divmod_truncating fuel a b :
  wf a -> wf b -> isZero b = false ->
  Z.of_nat (length (digits a)) < 2 ^ 26 ->
  (correction_fuel <= fuel)%nat ->
  divmod fuel a b = Undefined OutOfBounds \/
  exists q r,
    divmod fuel a b = Ok (q, r) /\ div fuel a b = Ok q /\ rem fuel a b = Ok r /\
    value b * value q + value r = value a /\
    Z.abs (value r) < Z.abs (value b) /\
    negative q = negb (Bool.eqb (negative a) (negative b)) && negb (isZero q) /\
    negative r = negative a && negb (isZero r) /\
    wf q /\ wf r.
Proof.
  intros Hwa Hwb Hzb Hsmall Hfuel. apply fuel_enough in Hfuel.
  destruct (divmod_spec fuel a b Hwa Hwb Hzb Hsmall Hfuel)
    as [->|(q & r & E & Hpost)]; [by left | right].
  destruct (isZero_false_normal b Hwb Hzb) as [_ Hbpos].
  exists q, r. unfold div, rem. rewrite E.
  split; [done|]. split; [done|]. split; [done|].
  by apply divmod_post_signed.
Qed.

Lemma wf_single d neg : 0 < d < 2 ^ 32 -> wf (mkBigInt [d] neg).
Proof.
  intros Hd. apply normal_wf. cbn [digits]. apply normal_singleton.
  unfold is_word. lia.
Defined.

Lemma divmod_truncating_witness :
  let a := mkBigInt [7] true in
  let b := mkBigInt [2] false in
  divmod correction_fuel a b = Undefined OutOfBounds \/
  exists q r,
    divmod correction_fuel a b = Ok (q, r) /\
    div correction_fuel a b = Ok q /\ rem correction_fuel a b = Ok r /\
    value b * value q + value r = value a /\
    Z.abs (value r) < Z.abs (value b) /\
    negative q = negb (Bool.eqb (negative a) (negative b)) && negb (isZero q) /\
    negative r = negative a && negb (isZero r) /\
    wf q /\ wf r.
Proof.
  intros a b.
  apply (divmod_truncating correction_fuel a b).
  - apply wf_single. lia.
  - apply wf_single. lia.
  - reflexivity.
  - cbn [a digits length]. lia.
  - apply Nat.le_refl.
Defined.

(** C1, the claim as stated fails: [-6 / 3] leaves a remainder whose sign
    flag is not the dividend's. *)
Lemma divmod_remainder_sign_counterexample :
  let a := mkBigInt [6] true in
  let b := mkBigInt [3] false in
  isZero b = false /\
  exists q r, divmod 2 a b = Ok (q, r) /\
    negative a = true /\ negative r = false /\
    negative q = true /\ isZero r = true.
Proof.
  intros a b. split; [reflexivity|].
  eexists _, _. split; [vm_compute; reflexivity|]. by vm_compute.
Qed.

(** C2.  For the divisor 1 the shift amount [norm] is 1, the number of
    significant bits of the top word, while that word has 31 leading zero
    bits; after the shift the divisor is 2 and bit 31 of its top word is
    clear. *)
Theorem divmod_norm_counts_significant_bits :
  let divisor := mkBigInt [1] false in
  divmod_norm divisor = Ok 1 /\
  builtin_clz 1 = Ok 31 /\
  digits (shl divisor 1) = [2] /\
  Z.testbit 2 31 = false.
Proof. by vm_compute. Qed.

(** C4.  Dividing [2^64] by 1: after the first subtraction the remainder is
    the one-word zero, and the turn for position 1 reads its word at index 1,
    outside the vector. *)
Theorem divmod_reads_out_of_bounds fuel :
  divmod (S fuel) (mkBigInt [0; 0; 1] false) (mkBigInt [1] false)
  = Undefined OutOfBounds.
Proof. by vm_compute. Qed.

(** C9.  [2^64 / 1] and [2^64 % 1] do not return normally although the
    divisor is not zero: [divmod] performs the out-of-bounds read. *)
Theorem div_rem_undefined_for_nonzero_divisor fuel :
  let a := mkBigInt [0; 0; 1] false in
  let b := mkBigInt [1] false in
  isZero b = false /\
  div (S fuel) a b = Undefined OutOfBounds /\
  rem (S fuel) a b = Undefined OutOfBounds.
Proof. by vm_compute. Qed.

(** C5.  Dividing [2^64] by 1 does not run to its end.  The dividend is the
    number that the text "18446744073709551616" parses to and the divisor is
    not zero, yet [divmod] returns no quotient and remainder, whatever the
    fuel: as soon as it has fuel for one turn of its correction loop it is at
    the read outside the remainder, where the behaviour of the program is
    undefined and nothing bounds its run. *)
Theorem divmod_does_not_finish fuel :
  let a := mkBigInt [0; 0; 1] false in
  let b := mkBigInt [1] false in
  parse 1 "18446744073709551616" = Ok a /\ parse 1 "1" = Ok b /\
  isZero b = false /\
  divmod (S fuel) a b = Undefined OutOfBounds /\
  forall q r, divmod fuel a b <> Ok (q, r).
Proof.
  intros a b. split; [by vm_compute|]. split; [by vm_compute|].
  split; [done|].
  assert (forall f, divmod (S f) a b = Undefined OutOfBounds) as H
    by (intros f; by vm_compute).
  split; [apply H|]. intros q r.
  destruct fuel as [|f]; [by vm_compute | by rewrite H].
Qed.

(** * Addition of a zero of the other sign *)

(** [operator+] hands a zero operand of the other sign to [operator-], which
    hands it back: unary minus leaves a zero as it is, so the signs never
    agree. *)
Lemma add_sub_zero_other_sign fuel x z :
  negative x = negb (negative z) -> isZero z = true ->
  add fuel x z = OutOfFuel /\ sub fuel x z = OutOfFuel.
Proof.
  intros Hsign Hz. induction fuel as [|fuel [IHa IHs]]; [done|].
  cbn [add sub]. unfold neg. rewrite Hz, Hsign.
  destruct (negative z); cbn [negb Bool.eqb]; done.
Qed.

(** C3.  Adding zero to [-5] never returns, whichever of the two zero
    representations is used, so [x + 0 == x] is not established for a negative
    [x]. *)
Theorem add_zero_to_negative_never_returns fuel :
  add fuel (mkBigInt [5] true) (of_int 0) = OutOfFuel /\
  add fuel (mkBigInt [5] true) (mkBigInt [0] false) = OutOfFuel.
Proof. split; by apply add_sub_zero_other_sign. Qed.

(** * Parsing *)

Lemma no_throw_bind {A B} (m : outcome A) (k : A -> outcome B) :
  no_throw m -> (forall a, no_throw (k a)) -> no_throw (m ≫= k).
Proof.
  intros Hm Hk. destruct m as [a|w|f|]; cbn; [apply Hk | | done..].
  by destruct (Hm w).
Qed.

Lemma no_throw_Ok {A} (a : A) : no_throw (Ok a).
Proof. done. Qed.

Lemma mul_inner_no_throw x ys c res : no_throw (mul_inner x ys c res).
Proof.
  revert ys c. induction res as [|r res IH]; intros [|y ys] c; cbn [mul_inner];
    try done.
  - by destruct (c =? 0).
  - destruct (c =? 0); [done|]. apply no_throw_bind; [apply IH | done].
  - apply no_throw_bind; [apply IH | done].
Qed.

Lemma mul_outer_no_throw xs ys res : no_throw (mul_outer xs ys res).
Proof.
  revert res. induction xs as [|x xs IH]; intros res; cbn [mul_outer]; [done|].
  apply no_throw_bind; [apply mul_inner_no_throw|]. intros [|r rest]; [apply IH|].
  apply no_throw_bind; [apply IH | done].
Qed.

Lemma mul_no_throw a b : no_throw (mul a b).
Proof. apply no_throw_bind; [apply mul_outer_no_throw | done]. Qed.

Lemma add_sub_no_throw fuel :
  forall a b, no_throw (add fuel a b) /\ no_throw (sub fuel a b).
Proof.
  induction fuel as [|fuel IH]; intros a b; [done|]. cbn [add sub]. split.
  - destruct (Bool.eqb (negative a) (negative b)); [done | apply IH].
  - destruct (negb (Bool.eqb (negative a) (negative b))); [apply IH|].
    destruct (ge (abs a) (abs b)); [done|].
    apply no_throw_bind; [apply IH | done].
Qed.


Lemma is_digit_value c :
  is_digit c = true ->
  char_minus_0 c = Z.of_nat (nat_of_ascii c) - 48 /\ 0 <= char_minus_0 c <= 9.
Proof.
  unfold is_digit, char_minus_0. intros H.
  apply andb_true_iff in H as [H1 H2]. apply Z.leb_le in H1, H2.
  destruct (Z.ltb_spec (Z.of_nat (nat_of_ascii c)) 128); lia.
Qed.

Lemma is_digit_0 c : Ascii.eqb c "0" = true -> Z.of_nat (nat_of_ascii c) - 48 = 0.
Proof. intros H. apply Ascii.eqb_eq in H. by subst. Qed.

Lemma strip_zeros_digits s :
  all_digits s = true ->
  all_digits (strip_zeros s) = true /\
  decimal (strip_zeros s) 0 = decimal s 0 /\
  (s <> EmptyString -> strip_zeros s <> EmptyString).
Proof.
  induction s as [|c s IH]; [done|]. intros Hd.
  destruct s as [|c' s]; [done|].
  change (strip_zeros (String c (String c' s)))
    with (if Ascii.eqb c "0" then strip_zeros (String c' s)
          else String c (String c' s)).
  destruct (Ascii.eqb c "0") eqn:E; [|done].
  cbn [all_digits] in Hd. apply andb_true_iff in Hd as [_ Hd].
  destruct (IH Hd) as (H1 & H2 & H3). split; [done|]. split; [|by intros _; apply H3].
  rewrite H2. cbn [decimal]. by rewrite (is_digit_0 c E).
Qed.

Lemma wf_of_digit d : 0 <= d <= 9 ->
  negative (of_int d) = false /\ wf (of_int d) /\ val (digits (of_int d)) = d.
Proof.
  intros Hd. unfold of_int. destruct (Z.ltb_spec d 0); [lia|]. cbn [negative digits].
  split; [done|]. destruct (Z.eqb_spec d 0) as [->|Hne].
  - split; [apply wf_of_int_0 | done].
  - rewrite u32_small by lia. split; [|cbn [val]; lia].
    apply normal_wf, normal_singleton. unfold is_word. lia.
Qed.

Lemma parse_loop_digits fuel str :
  all_digits str = true ->
  forall result, negative result = false -> wf result ->
  exists x, parse_loop (S fuel) str result = Ok x /\
    negative x = false /\ wf x /\
    val (digits x) = decimal str (val (digits result)).
Proof.
  induction str as [|c str IH]; intros Hd result Hneg Hwf.
  - by exists result.
  - cbn [all_digits] in Hd. apply andb_true_iff in Hd as [Hc Hd].
    destruct (is_digit_value c Hc) as [Hcv Hcr].
    destruct (wf_of_digit _ Hcr) as (Hdn & Hdw & Hdv).
    cbn [parse_loop]. change (of_int 10) with (mkBigInt [10] false).
    destruct (mul_ok result (mkBigInt [10] false)) as (p & -> & Hpv & Hpw & Hpn & Hpneg);
      [apply Hwf | apply Forall_singleton; by compute |].
    rewrite bind_Ok. cbn [add]. rewrite (Hpneg Hneg eq_refl), Hdn. cbn [Bool.eqb].
    rewrite bind_Ok.
    destruct (add_loop_val (digits p) (digits (of_int (char_minus_0 c))) Hpw)
      as [Hav Haw]; [apply Hdw|].
    edestruct (IH Hd) as (x & -> & Hx); [| |exists x; split; [done|]].
    + done.
    + split; [done|]. cbn [digits].
      apply add_loop_wf; [done | apply Hdw | right; apply Hpn; by right | apply Hdw].
    + cbn [digits] in Hx. destruct Hx as (? & ? & ->). split; [done|]. split; [done|].
      cbn [decimal]. f_equal. rewrite Hav, Hpv, Hdv, Hcv. cbn [digits val]. lia.
Qed.


(** Parsing a non-empty string of digits, with and without a leading
    minus sign. *)
Lemma parse_digit_string fuel s :
  all_digits s = true -> s <> EmptyString ->
  exists x, wf x /\ val (digits x) = decimal s 0 /\
    parse (S fuel) s = Ok (mkBigInt (digits x) false) /\
    parse (S fuel) (String "-" s) = Ok (mkBigInt (digits x) true).
Proof.
  intros Hd Hne.
  destruct (strip_zeros_digits s Hd) as (Hsd & Hsv & _).
  destruct (parse_loop_digits fuel (strip_zeros s) Hsd (of_int 0) eq_refl wf_of_int_0)
    as (x & Hx & _ & Hwx & Hxv).
  change (val (digits (of_int 0))) with 0 in Hxv.
  exists x. split; [done|]. split; [by rewrite Hxv, Hsv|]. unfold parse.
  change (Ascii.eqb "-" "-") with true. cbn beta iota. rewrite Hx, bind_Ok.
  split; [|done].
  destruct s as [|c s]; [done|].
  cbn [all_digits] in Hd. apply andb_true_iff in Hd as [Hc _].
  assert (Ascii.eqb c "-" = false) as ->.
  { apply Ascii.eqb_neq. intros ->. by vm_compute in Hc. }
  by rewrite Hx, bind_Ok.
Qed.




(** C7.  Parsing ["-0"] yields a zero with the sign flag set, which
    [operator==] tells apart from the result of parsing ["0"]. *)
Theorem parse_minus_zero_keeps_sign :
  parse 1 "-0" = Ok (mkBigInt [0] true) /\
  parse 1 "0" = Ok (mkBigInt [0] false) /\
  isZero (mkBigInt [0] true) = true /\
  eqb (mkBigInt [0] true) (mkBigInt [0] false) = false.
Proof. by vm_compute. Qed.

(** C8.  [BigInt(0)] has an empty magnitude and prints as ["0"], which parses
    to the one-word zero; [operator==] tells the two apart. *)
Theorem roundtrip_fails_for_empty_zero :
  to_string 1 (of_int 0) = Ok "0"%string /\
  parse 1 "0" = Ok (mkBigInt [0] false) /\
  eqb (mkBigInt [0] false) (of_int 0) = false.
Proof. by vm_compute. Qed.

(** * Bitwise operations *)

Lemma and_loop_wordwise xs ys : and_loop xs ys = wordwise_and xs ys.
Proof.
  unfold wordwise_and. revert ys.
  induction xs as [|x xs IH]; intros [|y ys]; cbn; try done.
  by rewrite IH.
Qed.

Lemma or_loop_nil_r xs : or_loop xs [] = zip_with Z.lor xs (replicate (length xs) 0).
Proof. induction xs as [|x xs IH]; cbn; [done | by rewrite IH]. Qed.

Lemma map_lor_0 ys : map (Z.lor 0) ys = zip_with Z.lor (replicate (length ys) 0) ys.
Proof. induction ys as [|y ys IH]; cbn; [done | by rewrite IH]. Qed.

Lemma or_loop_wordwise xs ys : or_loop xs ys = wordwise_or xs ys.
Proof.
  unfold wordwise_or, pad. revert ys.
  induction xs as [|x xs IH]; intros [|y ys]; cbn [or_loop length Nat.max].
  - done.
  - rewrite map_lor_0. cbn. by rewrite Nat.sub_diag, app_nil_r.
  - rewrite or_loop_nil_r. cbn. by rewrite Nat.sub_diag, app_nil_r.
  - rewrite IH. reflexivity.
Qed.

Lemma trim_digits_strips ds :
  (exists k, ds = trim_digits ds ++ replicate k 0) /\ normalized (trim_digits ds).
Proof.
  destruct (trim_digits_spec ds) as (k & Hk & _ & Htop). split; [by exists k|].
  intros Hlen. destruct (Htop Hlen) as (t & -> & Ht). congruence.
Qed.

(** C10.  [a & b] is the word-wise AND of the first [min] words and [a | b]
    the word-wise OR over [max] words with missing words read as 0, each with
    its most significant zero words removed; neither sets the sign flag,
    whatever the operands' signs. *)
Theorem bitwise_and_or_wordwise a b :
  (exists k, wordwise_and (digits a) (digits b)
             = digits (band a b) ++ replicate k 0) /\
  normalized (digits (band a b)) /\ negative (band a b) = false /\
  (exists k, wordwise_or (digits a) (digits b)
             = digits (bor a b) ++ replicate k 0) /\
  normalized (digits (bor a b)) /\ negative (bor a b) = false.
Proof.
  unfold band, bor. rewrite !digits_trim, !negative_trim. cbn [digits negative empty].
  rewrite and_loop_wordwise, or_loop_wordwise.
  destruct (trim_digits_strips (wordwise_and (digits a) (digits b))) as [H1 H2].
  destruct (trim_digits_strips (wordwise_or (digits a) (digits b))) as [H3 H4].
  done.
Qed.

(** * Further properties of the operations *)

Lemma canonical_wf x : canonical x -> wf x.
Proof. intros [H _]. by apply normal_wf. Qed.

Lemma canonical_single d neg : 0 < d < 2 ^ 32 -> canonical (mkBigInt [d] neg).
Proof.
  intros Hd. split; cbn [digits val negative]; [|lia].
  apply normal_singleton. unfold is_word. lia.
Defined.

(** ** Comparison and equality *)

Lemma lt_same_sign a b :
  negative a = negative b -> normal (digits a) -> normal (digits b) ->
  lt a b = if negative a then val (digits b) <? val (digits a)
           else val (digits a) <? val (digits b).
Proof.
  intros Hs Hna Hnb. unfold lt. rewrite <- Hs, Bool.eqb_reflx. cbn [negb].
  destruct (Nat.eqb_spec (length (digits a)) (length (digits b))) as [Hlen|Hlen];
    cbn [negb].
  - pose proof (lt_loop_order (negative a) _ _ Hlen (normal_words _ Hna)
                  (normal_words _ Hnb)) as H.
    destruct (lt_loop (negative a) (digits a) (digits b)) as [r|].
    + by destruct H.
    + rewrite H. destruct (negative a); symmetry; apply Z.ltb_irrefl.
  - assert (forall xs ys, normal xs -> normal ys -> (length xs < length ys)%nat ->
                          val xs < val ys) as Hlenlt.
    { intros xs ys Hx Hy Hl.
      destruct (Z.lt_ge_cases (val xs) (val ys)) as [|Hle]; [done|].
      apply (normal_length_le _ _ Hy Hx) in Hle. lia. }
    destruct (negative a).
    + destruct (Nat.ltb_spec (length (digits b)) (length (digits a))) as [Hl|Hl];
        symmetry; [apply Z.ltb_lt; by apply Hlenlt|].
      apply Z.ltb_ge. assert (val (digits a) < val (digits b)); [|lia].
      apply Hlenlt; [done..|lia].
    + destruct (Nat.ltb_spec (length (digits a)) (length (digits b))) as [Hl|Hl];
        symmetry; [apply Z.ltb_lt; by apply Hlenlt|].
      apply Z.ltb_ge. assert (val (digits b) < val (digits a)); [|lia].
      apply Hlenlt; [done..|lia].
Qed.

Lemma canonical_value_sign x :
  canonical x ->
  (negative x = true -> value x < 0) /\ (negative x = false -> 0 <= value x).
Proof.
  intros [Hn Hz]. pose proof (val_nonneg _ (normal_words _ Hn)) as H0.
  unfold value. split; intros Hs; rewrite Hs; [|done].
  destruct (decide (val (digits x) = 0)) as [E|]; [|lia].
  rewrite (Hz E) in Hs. done.
Qed.

Lemma lt_canonical a b :
  canonical a -> canonical b -> lt a b = (value a <? value b).
Proof.
  intros Ha Hb.
  destruct (canonical_value_sign a Ha) as [Han Hap].
  destruct (canonical_value_sign b Hb) as [Hbn Hbp].
  destruct Ha as [Hna _], Hb as [Hnb _].
  destruct (negative a) eqn:Ea, (negative b) eqn:Eb.
  - rewrite lt_same_sign by (done || congruence). rewrite Ea.
    unfold value. rewrite Ea, Eb.
    destruct (Z.ltb_spec (val (digits b)) (val (digits a))),
      (Z.ltb_spec (- val (digits a)) (- val (digits b))); lia.
  - unfold lt. rewrite Ea, Eb. cbn [Bool.eqb negb].
    specialize (Han eq_refl). specialize (Hbp eq_refl). symmetry. apply Z.ltb_lt. lia.
  - unfold lt. rewrite Ea, Eb. cbn [Bool.eqb negb].
    specialize (Hap eq_refl). specialize (Hbn eq_refl). symmetry. apply Z.ltb_ge. lia.
  - rewrite lt_same_sign by (done || congruence). rewrite Ea.
    unfold value. by rewrite Ea, Eb.
Qed.

(** X1.  [operator<] is the order of the integer values on canonical numbers. *)
Theorem lt_value_order a b :
  canonical a -> canonical b -> lt a b = (value a <? value b).
Proof. apply lt_canonical. Qed.

Lemma lt_value_order_witness :
  lt (mkBigInt [7] true) (mkBigInt [2] false)
  = (value (mkBigInt [7] true) <? value (mkBigInt [2] false)).
Proof.
  apply lt_value_order; apply canonical_single; lia.
Defined.

Lemma digits_eqb_eq xs ys : digits_eqb xs ys = true <-> xs = ys.
Proof.
  revert ys. induction xs as [|x xs IH]; intros [|y ys]; cbn [digits_eqb];
    try done.
  rewrite andb_true_iff, Z.eqb_eq, IH. split; [by intros [-> ->] | by intros [= -> ->]].
Qed.

Lemma eqb_eq a b : eqb a b = true <-> a = b.
Proof.
  unfold eqb. rewrite andb_true_iff, Bool.eqb_true_iff, digits_eqb_eq.
  destruct a as [da sa], b as [db sb]; cbn [digits negative].
  split; [by intros [-> ->] | by intros [= -> ->]].
Qed.

Lemma eqb_canonical a b :
  canonical a -> canonical b -> eqb a b = true <-> value a = value b.
Proof.
  intros Ha Hb. rewrite eqb_eq. split; [by intros ->|]. intros Hv.
  destruct (canonical_value_sign a Ha) as [Han Hap].
  destruct (canonical_value_sign b Hb) as [Hbn Hbp].
  destruct Ha as [Hna Hza], Hb as [Hnb Hzb].
  destruct a as [da sa], b as [db sb]. cbn [digits negative] in *.
  assert (sa = sb) as ->.
  { destruct sa, sb; try done.
    - specialize (Han eq_refl). specialize (Hbp eq_refl). lia.
    - specialize (Hap eq_refl). specialize (Hbn eq_refl). lia. }
  f_equal. apply normal_val_inj; [done..|].
  unfold value in Hv. cbn [digits negative] in Hv. destruct sb; lia.
Qed.

(** X2.  [operator==] holds between canonical numbers exactly when their values
    are equal. *)
Theorem eqb_value a b :
  canonical a -> canonical b -> eqb a b = true <-> value a = value b.
Proof. apply eqb_canonical. Qed.

Lemma eqb_value_witness :
  eqb (mkBigInt [7] true) (mkBigInt [7] true) = true
  <-> value (mkBigInt [7] true) = value (mkBigInt [7] true).
Proof.
  apply eqb_value; apply canonical_single; lia.
Defined.

(** ** Unary minus *)

Lemma neg_spec x :
  neg (neg x) = x /\
  (wf x -> value (neg x) = - value x /\ wf (neg x)) /\
  (isZero x = true -> neg x = x).
Proof.
  split; [|split].
  - unfold neg. destruct (isZero x) eqn:E; [by rewrite E|].
    unfold isZero in *. cbn [digits negative]. rewrite E.
    destruct x as [dx sx]. cbn. by rewrite negb_involutive.
  - intros Hwf. unfold neg. destruct (isZero x) eqn:E.
    + apply isZero_val in E; [|done]. unfold value. rewrite E.
      split; [by destruct (negative x) | done].
    + unfold value. cbn [digits negative]. split; [destruct (negative x); cbn; lia|].
      apply Hwf.
  - unfold neg. by intros ->.
Qed.

(** X3.  Unary minus is an involution on every [BigInt], and negates the value of
    a well-formed one; it never gives a zero a sign. *)
Theorem neg_involutive_negates x :
  neg (neg x) = x /\
  (wf x -> value (neg x) = - value x /\ wf (neg x)) /\
  (isZero x = true -> neg x = x).
Proof. apply neg_spec. Qed.

Lemma neg_involutive_negates_witness :
  value (neg (mkBigInt [7] true)) = - value (mkBigInt [7] true).
Proof.
  apply (proj1 (proj2 (neg_involutive_negates (mkBigInt [7] true)))).
  apply wf_single. lia.
Defined.

(** ** Multiplication *)

Lemma wf_trim ds s : words ds -> wf (trim (mkBigInt ds s)).
Proof.
  intros Hw. split; rewrite digits_trim; cbn [digits]; [by apply words_trim_digits|].
  destruct ds as [|d ds]; [by left | right]. by apply normal_trim_digits.
Qed.

(** The value of a trimmed number whose sign flag was set to [s]. *)
Lemma value_trim ds s :
  words ds -> value (trim (mkBigInt ds s)) = if s then - val ds else val ds.
Proof.
  intros Hw. unfold value. rewrite digits_trim, negative_trim. cbn [digits negative].
  rewrite val_trim_digits.
  destruct (trim_digits ds) as [|d [|d' r]] eqn:E; rewrite ?andb_true_r; try done.
  cbn [negb]. destruct (Z.eqb_spec d 0) as [->|]; [|by rewrite andb_true_r].
  rewrite andb_false_r. rewrite <- (val_trim_digits ds), E. cbn [val].
  by destruct s.
Qed.

(** X4.  [operator*] stays inside its result buffer and multiplies the values. *)
Theorem mul_value a b :
  wf a -> wf b ->
  exists r, mul a b = Ok r /\ value r = value a * value b /\ wf r.
Proof.
  intros [Ha _] [Hb _]. unfold mul. rewrite resize_nil.
  destruct (mul_outer_ok (digits a) (digits b)
              (replicate (length (digits a) + length (digits b)) 0))
    as (out & -> & Hol & How & Hov);
    [done | done | apply words_replicate_0 | by rewrite length_replicate | |].
  { rewrite val_replicate_0. apply pow32_pos. }
  eexists. split; [reflexivity|]. split; [|by apply wf_trim].
  rewrite value_trim by done. rewrite Hov, val_replicate_0. unfold value.
  destruct (negative a), (negative b); cbn [Bool.eqb negb]; lia.
Qed.

Lemma mul_value_witness :
  exists r, mul (mkBigInt [7] true) (mkBigInt [2] false) = Ok r /\
    value r = value (mkBigInt [7] true) * value (mkBigInt [2] false) /\ wf r.
Proof.
  apply mul_value; apply wf_single; lia.
Defined.

(** ** Addition and subtraction *)

(** What the magnitude comparison of [operator-] tells about two
    well-formed numbers. *)
Lemma lt_abs_cases a b :
  wf a -> wf b ->
  if lt (abs a) (abs b)
  then val (digits a) <= val (digits b) /\
       (length (digits a) <= length (digits b))%nat /\
       lt (abs b) (abs a) = false
  else val (digits b) <= val (digits a) /\
       (length (digits b) <= length (digits a))%nat.
Proof.
  intros [Hwa Ha] [Hwb Hb].
  pose proof (val_nonneg _ Hwa). pose proof (val_nonneg _ Hwb).
  destruct Ha as [Ea|Ha], Hb as [Eb|Hb].
  - unfold lt, abs. cbn [digits negative]. rewrite Ea, Eb. cbn. lia.
  - pose proof (normal_length _ Hb).
    unfold lt, abs. cbn [digits negative Bool.eqb negb]. rewrite Ea. cbn [length val].
    destruct (digits b) as [|d db]; [cbn in *; lia|]. cbn [length Nat.eqb negb Nat.ltb Nat.leb].
    cbn [val] in *. split; [lia|]. split; [lia | done].
  - pose proof (normal_length _ Ha).
    unfold lt, abs. cbn [digits negative Bool.eqb negb]. rewrite Eb. cbn [length val].
    destruct (digits a) as [|d da]; [cbn in *; lia|]. cbn [length Nat.eqb negb Nat.ltb Nat.leb].
    cbn [val] in *. lia.
  - rewrite !lt_nonneg by done. cbn [abs digits].
    destruct (Z.ltb_spec (val (digits a)) (val (digits b))).
    + split; [lia|]. split; [apply normal_length_le; try done; lia|].
      apply Z.ltb_ge. lia.
    + split; [lia|]. by apply normal_length_le.
Qed.

Lemma sub_direct a b :
  wf a -> wf b -> negative a = negative b -> lt (abs a) (abs b) = false ->
  let r := trim (mkBigInt (sub_loop (digits a) (digits b) 0) (negative a)) in
  value r = value a - value b /\ wf r.
Proof.
  intros Hwa Hwb Hs Hlt r. pose proof (lt_abs_cases a b Hwa Hwb) as Hc.
  rewrite Hlt in Hc. destruct Hc as [Hv Hl].
  destruct (sub_loop_val (digits a) (digits b)) as (Hsv & Hsw & _);
    [apply Hwa | apply Hwb | done | done |].
  split; [|by apply wf_trim].
  subst r. rewrite value_trim by done. rewrite Hsv. unfold value. rewrite <- Hs.
  destruct (negative a); lia.
Qed.

Lemma wf_neg x : wf x -> wf (neg x) /\ value (neg x) = - value x.
Proof.
  intros Hwf. destruct (neg_spec x) as (_ & H & _).
  by destruct (H Hwf).
Qed.

Lemma sub_same_sign fuel a b :
  wf a -> wf b -> negative a = negative b ->
  exists r, sub (S (S fuel)) a b = Ok r /\ value r = value a - value b /\ wf r.
Proof.
  intros Hwa Hwb Hs. cbn [sub]. rewrite Hs, Bool.eqb_reflx. cbn [negb].
  pose proof (lt_abs_cases a b Hwa Hwb) as Hc. unfold ge.
  destruct (lt (abs a) (abs b)) eqn:Hlt; cbn [negb].
  - destruct Hc as (_ & _ & Hlt').
    rewrite ?Bool.eqb_reflx, Hlt'. cbn [negb]. rewrite bind_Ok.
    destruct (sub_direct b a Hwb Hwa (eq_sym Hs) Hlt') as [Hv Hw].
    eexists. split; [reflexivity|].
    destruct (wf_neg _ Hw) as [Hw' Hv']. split; [|done]. rewrite Hv', Hv. lia.
  - rewrite <- Hs. eexists. split; [reflexivity|]. by apply sub_direct.
Qed.

Lemma neg_sign x : isZero x = false -> negative (neg x) = negb (negative x).
Proof. intros H. unfold neg. by rewrite H. Qed.

(** X5.  [operator+] adds the values of well-formed numbers, whenever the signs
    agree or the right operand is not zero. *)
Theorem add_value fuel a b :
  wf a -> wf b -> negative a = negative b \/ isZero b = false ->
  exists r, add (S (S (S fuel))) a b = Ok r /\
    value r = value a + value b /\ wf r.
Proof.
  intros Hwa Hwb Hc. cbn [add].
  destruct (Bool.eqb (negative a) (negative b)) eqn:Hs.
  - apply Bool.eqb_prop in Hs. eexists. split; [reflexivity|].
    destruct (add_loop_val (digits a) (digits b)) as [Hv Hw]; [apply Hwa | apply Hwb|].
    split.
    + unfold value. cbn [digits negative]. rewrite Hv, <- Hs.
      destruct (negative a); lia.
    + split; [done|]. cbn [digits].
      apply add_loop_wf; [apply Hwa | apply Hwb | apply Hwa | apply Hwb].
  - destruct Hc as [Hc|Hz]; [rewrite Hc, Bool.eqb_reflx in Hs; done|].
    destruct (wf_neg b Hwb) as [Hwn Hvn].
    destruct (sub_same_sign fuel a (neg b) Hwa Hwn) as (r & -> & Hv & Hw).
    { rewrite (neg_sign b Hz). destruct (negative a), (negative b); done. }
    exists r. split; [done|]. split; [lia | done].
Qed.

Lemma add_value_witness :
  exists r, add 3 (mkBigInt [7] true) (mkBigInt [2] false) = Ok r /\
    value r = value (mkBigInt [7] true) + value (mkBigInt [2] false) /\ wf r.
Proof.
  apply (add_value 0); [apply wf_single; lia | apply wf_single; lia | by right].
Defined.

(** X6.  [operator-] subtracts the values of well-formed numbers, whenever the
    signs agree or the right operand is not zero. *)
Theorem sub_value fuel a b :
  wf a -> wf b -> negative a = negative b \/ isZero b = false ->
  exists r, sub (S (S (S fuel))) a b = Ok r /\
    value r = value a - value b /\ wf r.
Proof.
  intros Hwa Hwb Hc.
  destruct (Bool.eqb (negative a) (negative b)) eqn:Hs.
  - apply Bool.eqb_prop in Hs. by apply sub_same_sign.
  - destruct Hc as [Hc|Hz]; [rewrite Hc, Bool.eqb_reflx in Hs; done|].
    cbn [sub add]. rewrite Hs. cbn [negb].
    destruct (wf_neg b Hwb) as [Hwn Hvn].
    assert (negative a = negative (neg b)) as Hs'.
    { rewrite (neg_sign b Hz). destruct (negative a), (negative b); done. }
    rewrite Hs', Bool.eqb_reflx. eexists. split; [reflexivity|].
    destruct (add_loop_val (digits a) (digits (neg b))) as [Hv Hw];
      [apply Hwa | apply Hwn|].
    split.
    + unfold value in *. cbn [digits negative]. rewrite Hv. rewrite <- Hs' in *.
      destruct (negative a); lia.
    + split; [done|]. cbn [digits].
      apply add_loop_wf; [apply Hwa | apply Hwn | apply Hwa | apply Hwn].
Qed.

Lemma sub_value_witness :
  exists r, sub 3 (mkBigInt [7] true) (mkBigInt [2] false) = Ok r /\
    value r = value (mkBigInt [7] true) - value (mkBigInt [2] false) /\ wf r.
Proof.
  apply (sub_value 0); [apply wf_single; lia | apply wf_single; lia | by right].
Defined.

Lemma add_rest_0 zs : words zs -> add_rest zs 0 = zs.
Proof.
  induction 1 as [|z zs Hz _ IH]; [done|]. unfold is_word in Hz.
  cbn [add_rest]. rewrite Z.add_0_l, u64_small, land_mask32, shiftr_32 by lia.
  rewrite Z.mod_small, Z.div_small by lia. by rewrite IH.
Qed.

(** X7.  Adding [BigInt(0)] on either side of a non-negative number returns that
    number unchanged. *)
Theorem add_zero_nonneg fuel x :
  words (digits x) -> negative x = false ->
  add (S fuel) x (of_int 0) = Ok x /\ add (S fuel) (of_int 0) x = Ok x.
Proof.
  intros Hw Hs. cbn [add]. change (negative (of_int 0)) with false.
  change (digits (of_int 0)) with (@nil Z). rewrite Hs. cbn [Bool.eqb].
  assert (add_loop (digits x) [] 0 = digits x) as ->.
  { destruct (digits x) eqn:E; [done|]. cbn [add_loop]. rewrite <- E.
    apply add_rest_0. by rewrite E. }
  cbn [add_loop]. rewrite add_rest_0 by done.
  destruct x as [dx sx]. cbn in *. by subst.
Qed.

Lemma add_zero_nonneg_witness :
  add 1 (mkBigInt [7] false) (of_int 0) = Ok (mkBigInt [7] false) /\
  add 1 (of_int 0) (mkBigInt [7] false) = Ok (mkBigInt [7] false).
Proof.
  apply (add_zero_nonneg 0 (mkBigInt [7] false)); [|reflexivity].
  apply Forall_singleton. unfold is_word. lia.
Defined.

(** X8.  [x + (-x)] is the one-word zero with a clear sign flag for every
    well-formed non-zero [x]. *)
Theorem add_neg_self fuel x :
  wf x -> isZero x = false ->
  add (S (S fuel)) x (neg x) = Ok (mkBigInt [0] false).
Proof.
  intros Hwf Hz. destruct (isZero_false_normal x Hwf Hz) as [Hn Hpos].
  destruct (neg_spec x) as (Hinv & _).
  cbn [add]. rewrite (neg_sign x Hz).
  assert (Bool.eqb (negative x) (negb (negative x)) = false) as ->
    by (by destruct (negative x)).
  rewrite Hinv. cbn [sub]. rewrite Bool.eqb_reflx. cbn [negb].
  unfold ge. rewrite lt_nonneg by done. rewrite Z.ltb_irrefl. cbn [negb].
  destruct (sub_loop_val (digits x) (digits x)) as (Hv & Hw & Hl);
    [by apply normal_words.. | done | lia |].
  assert (trim_digits (sub_loop (digits x) (digits x) 0) = [0]) as E.
  { apply normal_val_0; [|rewrite val_trim_digits; lia].
    apply normal_trim_digits; [done|]. intros E. rewrite E in Hl.
    pose proof (normal_length _ Hn). cbn in Hl. lia. }
  unfold trim. cbn [digits negative]. by rewrite E.
Qed.

Lemma add_neg_self_witness :
  add 2 (mkBigInt [7] true) (neg (mkBigInt [7] true)) = Ok (mkBigInt [0] false).
Proof.
  apply (add_neg_self 0); [apply wf_single; lia | reflexivity].
Defined.

(** ** Shifts *)

Lemma shl_wf x s :
  wf x -> 0 <= s ->
  wf (shl x s) /\ val (digits (shl x s)) = val (digits x) * 2 ^ s /\
  negative (shl x s) = negative x.
Proof.
  intros Hwf Hs. destruct (isZero x) eqn:Hz.
  - unfold shl. rewrite Hz. cbn [orb]. apply isZero_val in Hz; [|done].
    rewrite Hz. split; [done|]. split; [lia | done].
  - destruct (isZero_false_normal x Hwf Hz) as [Hn _].
    destruct (shl_spec x s Hn Hs) as (H1 & H2 & H3).
    split; [by apply normal_wf | done].
Qed.

(** X9.  [operator<<] multiplies the magnitude by [2^shift], keeps the number
    well-formed and keeps its sign flag. *)
Theorem shl_value x s :
  wf x -> 0 <= s ->
  wf (shl x s) /\ val (digits (shl x s)) = val (digits x) * 2 ^ s /\
  negative (shl x s) = negative x.
Proof. apply shl_wf. Qed.

Lemma shl_value_witness :
  val (digits (shl (mkBigInt [7] true) 40)) = val (digits (mkBigInt [7] true)) * 2 ^ 40.
Proof.
  apply (shl_value (mkBigInt [7] true) 40); [apply wf_single; lia | lia].
Defined.

Lemma zero_test_nonzero ds :
  val ds <> 0 -> match ds with [d] => d =? 0 | _ => false end = false.
Proof.
  intros H. destruct ds as [|d [|d' r]]; try done. cbn [val] in H.
  apply Z.eqb_neq. lia.
Qed.

Lemma shr_wf x s :
  wf x -> 0 <= s ->
  wf (shr x s) /\ val (digits (shr x s)) = val (digits x) / 2 ^ s /\
  (val (digits x) / 2 ^ s <> 0 -> negative (shr x s) = negative x).
Proof.
  intros Hwf Hs. unfold shr.
  assert (0 < 2 ^ s) as Hps by (apply Z.pow_pos_nonneg; lia).
  destruct (isZero x) eqn:Hz; cbn [orb].
  { apply isZero_val in Hz; [|done]. rewrite Hz, Z.div_0_l by lia. done. }
  destruct (Z.eqb_spec s 0) as [->|Hs0].
  { rewrite Z.pow_0_r, Z.div_1_r. done. }
  destruct (isZero_false_normal x Hwf Hz) as [Hn Hpos].
  pose proof (normal_words _ Hn) as Hw. pose proof (val_bound _ Hw) as Hb.
  destruct (shift_split s Hs) as (-> & -> & Hq & Hr & Hpow).
  set (ws := Z.to_nat (s / 32)) in *.
  assert (0 < 2 ^ (s mod 32)) as Hpb by (apply Z.pow_pos_nonneg; lia).
  pose proof (pow32_pos ws) as Hpw.
  destruct (Z.leb_spec (Z.of_nat (length (digits x))) (s / 32)) as [Hle|Hgt].
  { change (digits (of_int 0)) with (@nil Z). cbn [val].
    assert (val (digits x) / 2 ^ s = 0) as E.
    { apply Z.div_small.
      assert (pow32 (length (digits x)) <= pow32 ws) by (apply pow32_le; lia). nia. }
    rewrite E. split; [apply wf_of_int_0 | done]. }
  assert (words (drop ws (digits x))) as Hwd by (by apply Forall_drop).
  destruct (shr_loop_spec (s mod 32) (drop ws (digits x)))
    as (out & c & E & Hol & How & Hc & Hov); [lia | done |].
  rewrite E. cbn [fst].
  assert (val out = val (digits x) / 2 ^ s) as Hout.
  { rewrite val_drop in Hov by done. rewrite Hpow, <- Z.div_div by lia.
    apply Z.div_unique with (r := c); lia. }
  split; [by apply wf_trim|]. rewrite digits_trim, negative_trim. cbn [digits negative].
  rewrite val_trim_digits. split; [done|]. intros Hnz.
  rewrite zero_test_nonzero; [apply andb_true_r|]. rewrite val_trim_digits. lia.
Qed.

(** X10.  [operator>>] divides the magnitude by [2^shift], rounding down; the sign
    flag is kept whenever the result is not zero. *)
Theorem shr_value x s :
  wf x -> 0 <= s ->
  wf (shr x s) /\ val (digits (shr x s)) = val (digits x) / 2 ^ s /\
  (val (digits x) / 2 ^ s <> 0 -> negative (shr x s) = negative x).
Proof. apply shr_wf. Qed.

Lemma shr_value_witness :
  val (digits (shr (mkBigInt [7] true) 1)) = val (digits (mkBigInt [7] true)) / 2 ^ 1.
Proof.
  apply (shr_value (mkBigInt [7] true) 1); [apply wf_single; lia | lia].
Defined.

(** X11.  Shifting left and back right by the same amount returns the very same
    number, for every well-formed number of either sign. *)
Theorem shl_shr_roundtrip x s : wf x -> 0 <= s -> shr (shl x s) s = x.
Proof.
  intros Hwf Hs. destruct (isZero x) eqn:Hz.
  { unfold shl. rewrite Hz. cbn [orb]. unfold shr. by rewrite Hz. }
  destruct (Z.eqb_spec s 0) as [->|Hs0].
  { unfold shl, shr. rewrite Hz. cbn. by rewrite Hz. }
  destruct (isZero_false_normal x Hwf Hz) as [Hn Hpos].
  destruct (shl_wf x s Hwf Hs) as (Hw1 & Hv1 & Hs1).
  destruct (shr_wf (shl x s) s Hw1 Hs) as (Hw2 & Hv2 & Hs2).
  assert (0 < 2 ^ s) as Hps by (apply Z.pow_pos_nonneg; lia).
  rewrite Hv1, Z.div_mul in Hv2, Hs2 by lia.
  specialize (Hs2 ltac:(lia)). rewrite Hs1 in Hs2.
  assert (digits (shr (shl x s) s) = digits x) as Hd.
  { apply normal_val_inj; [|done..].
    destruct Hw2 as [_ [E|Hn2]]; [rewrite E in Hv2; cbn in Hv2; lia | done]. }
  destruct (shr (shl x s) s) as [d2 s2], x as [dx sx]. cbn in *. by subst.
Qed.

Lemma shl_shr_roundtrip_witness :
  shr (shl (mkBigInt [7] true) 40) 40 = mkBigInt [7] true.
Proof.
  apply shl_shr_roundtrip; [apply wf_single; lia | lia].
Defined.

(** ** Constructors from native integers *)

Lemma land_mask32_small z : 0 <= z < 2 ^ 32 -> Z.land z mask32 = z.
Proof. intros. rewrite land_mask32. by apply Z.mod_small. Qed.

(** X12.  The three integer constructors build a well-formed number with the value
    of their argument. *)
Theorem constructors_value v :
  (- 2 ^ 31 < v < 2 ^ 31 -> value (of_int v) = v /\ wf (of_int v)) /\
  (0 <= v < 2 ^ 32 -> value (of_uint32 v) = v /\ wf (of_uint32 v)) /\
  (- 2 ^ 63 < v < 2 ^ 63 -> value (of_int64 v) = v /\ wf (of_int64 v)).
Proof.
  split; [|split]; intros Hv.
  - unfold of_int, value. cbn [digits negative].
    destruct (Z.ltb_spec v 0).
    + destruct (Z.eqb_spec (- v) 0); [lia|]. rewrite u32_small by lia.
      cbn [val]. split; [lia|]. apply wf_single. lia.
    + destruct (Z.eqb_spec v 0) as [->|]; [split; [done | apply wf_of_int_0]|].
      rewrite u32_small by lia. cbn [val]. split; [lia|]. apply wf_single. lia.
  - unfold of_uint32, value. cbn [digits negative].
    destruct (Z.eqb_spec v 0) as [->|]; [split; [done | apply wf_of_int_0]|].
    cbn [val]. split; [lia|]. apply wf_single. lia.
  - unfold of_int64, value. cbn [digits negative].
    set (m := if v <? 0 then - v else v).
    assert (0 <= m < 2 ^ 63 /\ v = if v <? 0 then - m else m) as [Hm Hvm].
    { subst m. destruct (Z.ltb_spec v 0); lia. }
    destruct (Z.eqb_spec m 0) as [E|Hne].
    { rewrite E in Hvm. split; [destruct (v <? 0); cbn [val]; lia | apply wf_of_int_0]. }
    rewrite !land_mask32, shiftr_32.
    destruct (split_word m) as (Hsp & Hsw & Hsd); [lia|].
    pose proof (div_word_bound m (2 ^ 31) ltac:(lia)) as Hhi.
    unfold mask32. unfold is_word in Hsw.
    destruct (Z.ltb_spec 4294967295 m) as [Hbig|Hsmall].
    + rewrite (Z.mod_small (m / 2 ^ 32)) by lia. cbn [val].
      assert (1 <= m / 2 ^ 32) by (apply Z.div_le_lower_bound; lia).
      split; [destruct (v <? 0); lia|]. apply normal_wf. cbn [digits].
      split; [|right; exists (m / 2 ^ 32); split; [done | lia]].
      apply Forall_cons. split; [done|]. apply Forall_singleton. unfold is_word. lia.
    + rewrite Z.mod_small by lia. cbn [val].
      split; [destruct (v <? 0); lia|]. apply wf_single. lia.
Qed.

Lemma constructors_value_witness :
  value (of_int64 (- 5000000000)) = - 5000000000 /\ wf (of_int64 (- 5000000000)).
Proof.
  apply (proj2 (proj2 (constructors_value (- 5000000000)))). lia.
Defined.

(** ** Normalisation *)

Lemma trim_digits_normalized ds : normalized ds -> trim_digits ds = ds.
Proof.
  intros Hn. unfold trim_digits. rewrite pop_zeros_id; [apply reverse_involutive|].
  unfold normalized in Hn. rewrite <- head_reverse, <- (length_reverse ds) in Hn.
  destruct (reverse ds) as [|d [|d' r]]; try done.
  cbn in Hn. intros ->. apply Hn; [lia | done].
Qed.

(** X13.  [trim] is idempotent, keeps the value, removes every redundant top word
    and leaves a one-word zero without sign. *)
Theorem trim_spec x :
  trim (trim x) = trim x /\
  val (digits (trim x)) = val (digits x) /\
  normalized (digits (trim x)) /\
  (digits (trim x) = [0] -> negative (trim x) = false) /\
  (words (digits x) -> wf (trim x) /\ value (trim x) = value x).
Proof.
  destruct (trim_digits_strips (digits x)) as [_ Hn].
  split_and!.
  - unfold trim. cbn [digits negative].
    rewrite (trim_digits_normalized _ Hn).
    destruct (trim_digits (digits x)) as [|d [|d' r]]; try done.
    by destruct (d =? 0).
  - apply val_trim_digits.
  - done.
  - unfold trim. cbn [digits negative]. by intros ->.
  - intros Hw. destruct x as [dx sx]. cbn [digits] in *.
    split; [by apply wf_trim|]. rewrite value_trim by done. done.
Qed.

Lemma trim_spec_witness :
  wf (trim (mkBigInt [7; 0; 0] true)) /\
  value (trim (mkBigInt [7; 0; 0] true)) = value (mkBigInt [7; 0; 0] true).
Proof.
  apply (proj2 (proj2 (proj2 (proj2 (trim_spec (mkBigInt [7; 0; 0] true)))))).
  cbn [digits]. repeat (apply Forall_cons; split; [unfold is_word; lia|]).
  apply Forall_nil_2.
Defined.

(** ** The exception of [divmod] *)

Lemma index_no_throw v i : no_throw (index v i).
Proof. unfold index. destruct (i <? 0); [done|]. by destruct (v !! Z.to_nat i). Qed.

Lemma back_no_throw v : no_throw (back v).
Proof. unfold back. by destruct (last v). Qed.

Lemma estimate_no_throw R D m i : no_throw (estimate R D m i).
Proof.
  unfold estimate. apply no_throw_bind.
  { destruct (i + m <? Z.of_nat (length (digits R))); [apply index_no_throw | done]. }
  intros r_hi. apply no_throw_bind; [apply index_no_throw|]. intros r_lo.
  apply no_throw_bind; [apply back_no_throw|]. intros d.
  apply no_throw_bind; [by destruct (d =? 0) | done].
Qed.

Lemma int_mul_no_throw x y : no_throw (int_mul x y).
Proof. unfold int_mul. by destruct (_ && _). Qed.

Lemma correct_loop_no_throw fuel R D i :
  forall qg mult, no_throw (correct_loop fuel R D i qg mult).
Proof.
  induction fuel as [|fuel IH]; intros qg mult; cbn [correct_loop]; [done|].
  destruct (lt R mult); [|done].
  apply no_throw_bind; [apply mul_no_throw|]. intros t.
  apply no_throw_bind; [apply int_mul_no_throw|]. intros s. apply IH.
Qed.

Lemma divmod_step_no_throw fuel D m i Q R : no_throw (divmod_step fuel D m i Q R).
Proof.
  unfold divmod_step. apply no_throw_bind; [apply estimate_no_throw|]. intros qg.
  apply no_throw_bind; [apply mul_no_throw|]. intros t.
  apply no_throw_bind; [apply int_mul_no_throw|]. intros s.
  apply no_throw_bind; [apply correct_loop_no_throw|]. intros [q mult].
  apply no_throw_bind; [unfold store; by destruct (_ && _)|]. intros qd.
  apply no_throw_bind; [apply add_sub_no_throw | done].
Qed.

Lemma divmod_loop_no_throw fuel D m k :
  forall Q R, no_throw (divmod_loop fuel D m k Q R).
Proof.
  induction k as [|k IH]; intros Q R; cbn [divmod_loop]; [done|].
  apply no_throw_bind; [apply divmod_step_no_throw|]. intros [Q' R']. apply IH.
Qed.

(** X14.  [divmod], [operator/] and [operator%] throw "Division by zero" when
    the divisor satisfies [isZero]; on well-formed operands with any other
    divisor they throw nothing, whatever the fuel. *)
Theorem divmod_throws_iff_zero_divisor fuel a b :
  (isZero b = true ->
   divmod fuel a b = Throw "Division by zero" /\
   div fuel a b = Throw "Division by zero" /\
   rem fuel a b = Throw "Division by zero") /\
  (wf a -> wf b -> Z.of_nat (length (digits a)) < 2 ^ 26 ->
   isZero b = false ->
   no_throw (divmod fuel a b) /\ no_throw (div fuel a b) /\
   no_throw (rem fuel a b)).
Proof.
  split.
  - intros Hz. unfold div, rem, divmod. by rewrite Hz.
  - intros Hwa Hwb Hsmall Hz.
    assert (no_throw (divmod fuel a b)) as H.
    { assert (forall q r, divmod fuel a b = Ok (q, r) -> no_throw (divmod fuel a b))
        as Hok by (by intros q r ->).
      destruct (isZero a) eqn:Hza.
      { destruct (divmod_early fuel a b Hwa Hwb Hz) as (q & r & E & _); eauto. }
      destruct (Z.lt_ge_cases (val (digits a)) (val (digits b))) as [Hlt|Hge].
      { destruct (divmod_early fuel a b Hwa Hwb Hz) as (q & r & E & _); eauto. }
      destruct (divmod_unfold fuel a b Hwa Hwb Hz Hza Hge Hsmall)
        as (norm & _ & _ & _ & _ & _ & _ & _ & _ & _ & ->).
      apply no_throw_bind; [apply divmod_loop_no_throw|]. by intros [Q R]. }
    split; [done|]. split; apply no_throw_bind; try done; by intros [q r].
Qed.

Lemma divmod_throws_iff_zero_divisor_witness :
  let a := mkBigInt [100] false in
  let z := mkBigInt [0] false in
  let b := mkBigInt [7] true in
  (divmod 1 a z = Throw "Division by zero" /\
   div 1 a z = Throw "Division by zero" /\
   rem 1 a z = Throw "Division by zero") /\
  (no_throw (divmod 1 a b) /\ no_throw (div 1 a b) /\ no_throw (rem 1 a b)).
Proof.
  intros a z b. split.
  - apply (proj1 (divmod_throws_iff_zero_divisor 1 a z)). reflexivity.
  - apply (proj2 (divmod_throws_iff_zero_divisor 1 a b)).
    + apply normal_wf, normal_singleton. unfold is_word. lia.
    + apply normal_wf, normal_singleton. unfold is_word. lia.
    + cbn [a digits length]. lia.
    + reflexivity.
Defined.

(** ** Division by a word, and printing *)

Lemma divmod_small_loop_spec d ds :
  0 < d < 2 ^ 32 -> words ds ->
  exists out r, divmod_small_loop d ds = (out, r) /\ length out = length ds /\
    words out /\ 0 <= r < d /\ val ds = d * val out + r.
Proof.
  intros Hd Hds. induction Hds as [|w ds Hw Hds IH].
  - exists [], 0. cbn. split_and!; try done; try lia. constructor.
  - destruct IH as (out & r & E & Hol & How & Hr & Hv).
    unfold is_word in Hw. cbn [divmod_small_loop]. rewrite E.
    rewrite Z.shiftl_mul_pow2 by lia.
    rewrite (u64_small (r * 2 ^ 32)), u64_small by nia.
    set (cur := r * 2 ^ 32 + w).
    assert (0 <= cur < d * 2 ^ 32) as Hcur by (subst cur; nia).
    pose proof (Z.div_mod cur d ltac:(lia)) as Hdm.
    pose proof (Z.mod_pos_bound cur d ltac:(lia)) as Hm.
    assert (0 <= cur / d < 2 ^ 32) as Hq.
    { split; [apply Z.div_pos; lia | apply Z.div_lt_upper_bound; lia]. }
    rewrite u32_small by done.
    eexists _, _. split; [reflexivity|]. cbn [length val].
    split_and!; try lia; by constructor.
Qed.

Lemma divmod_small_ok x d :
  words (digits x) -> 0 < d < 2 ^ 32 ->
  exists q r, divmod_small x d = Ok (q, r) /\
    val (digits q) = val (digits x) / d /\ r = val (digits x) mod d /\
    wf q /\ (length (digits q) <= length (digits x))%nat.
Proof.
  intros Hw Hd. unfold divmod_small.
  destruct (Z.eqb_spec d 0) as [|_]; [lia|]. cbn [andb].
  destruct (divmod_small_loop_spec d (digits x) Hd Hw)
    as (out & r & -> & Hol & How & Hr & Hv).
  rewrite u32_small by lia. eexists _, _. split; [reflexivity|].
  rewrite digits_trim. cbn [digits]. rewrite val_trim_digits.
  split; [apply Z.div_unique with (r := r); lia|].
  split; [apply Z.mod_unique with (q := val out); lia|].
  split; [by apply wf_trim|].
  pose proof (length_trim_digits out). lia.
Qed.

(** X15.  [divmod_small] leaves the quotient by a non-zero word in the number and
    returns the remainder. *)
Theorem divmod_small_spec x d :
  words (digits x) -> 0 < d < 2 ^ 32 ->
  exists q r, divmod_small x d = Ok (q, r) /\
    val (digits q) = val (digits x) / d /\ r = val (digits x) mod d /\
    wf q /\ (length (digits q) <= length (digits x))%nat.
Proof. apply divmod_small_ok. Qed.

Lemma divmod_small_spec_witness :
  let x := mkBigInt [7] false in
  exists q r, divmod_small x 10 = Ok (q, r) /\
    val (digits q) = val (digits x) / 10 /\ r = val (digits x) mod 10 /\
    wf q /\ (length (digits q) <= length (digits x))%nat.
Proof.
  intros x. apply divmod_small_spec; [|lia].
  apply Forall_singleton. unfold is_word. lia.
Defined.

Lemma decimal_app s1 s2 acc :
  decimal (s1 ++ s2) acc = decimal s2 (decimal s1 acc).
Proof. revert acc. induction s1 as [|c s1 IH]; intros acc; cbn; [done | apply IH]. Qed.

Lemma decimal_rev s : decimal (string_rev s) 0 = decimal_lsd s.
Proof.
  induction s as [|c s IH]; [done|].
  cbn [string_rev decimal_lsd]. rewrite decimal_app, IH. cbn [decimal]. lia.
Qed.

Lemma all_digits_app s1 s2 :
  all_digits (s1 ++ s2) = all_digits s1 && all_digits s2.
Proof.
  induction s1 as [|c s1 IH]; [done|]. cbn. by rewrite IH, andb_assoc.
Qed.

Lemma all_digits_rev s : all_digits (string_rev s) = all_digits s.
Proof.
  induction s as [|c s IH]; [done|].
  cbn [string_rev all_digits]. rewrite all_digits_app, IH. cbn [all_digits].
  rewrite andb_true_r. apply andb_comm.
Qed.

Lemma string_rev_nonempty s : s <> EmptyString -> string_rev s <> EmptyString.
Proof.
  destruct s as [|c s]; [done|]. intros _. cbn [string_rev].
  by destruct (string_rev s).
Qed.

Lemma append_empty_r s : (s ++ EmptyString = s)%string.
Proof. induction s as [|c s IH]; cbn; [done | by rewrite IH]. Qed.

Lemma append_assoc_1 s c t :
  ((s ++ String c EmptyString) ++ t = s ++ String c t)%string.
Proof. induction s as [|c' s IH]; cbn; [done | by rewrite IH]. Qed.

Lemma digit_char r :
  0 <= r < 10 ->
  let c := ascii_of_nat (Z.to_nat (u32 (48 + r) mod 256)) in
  Z.of_nat (nat_of_ascii c) - 48 = r /\ is_digit c = true.
Proof.
  intros Hr c. subst c. rewrite u32_small by lia. rewrite Z.mod_small by lia.
  assert (Z.of_nat (nat_of_ascii (ascii_of_nat (Z.to_nat (48 + r)))) = 48 + r) as E.
  { rewrite nat_ascii_embedding by lia. lia. }
  unfold is_digit. rewrite E. split; [lia|].
  apply andb_true_iff. split; apply Z.leb_le; lia.
Qed.

(** The printing loop finishes and appends the decimal digits of the
    magnitude, least significant first. *)
Lemma to_string_loop_spec n :
  0 <= n -> forall temp s, wf temp -> val (digits temp) = n ->
  exists fuel t, to_string_loop fuel temp s = Ok (s ++ t)%string /\
    all_digits t = true /\ decimal_lsd t = n /\ (0 < n -> t <> EmptyString).
Proof.
  revert n. apply (Zlt_0_ind (fun n => forall temp s, wf temp ->
    val (digits temp) = n ->
    exists fuel t, to_string_loop fuel temp s = Ok (s ++ t)%string /\
      all_digits t = true /\ decimal_lsd t = n /\ (0 < n -> t <> EmptyString))).
  intros n IH Hn temp s Hwf Hv.
  destruct (isZero temp) eqn:Hz.
  - exists 1%nat, EmptyString. cbn [to_string_loop]. rewrite Hz.
    apply isZero_val in Hz; [|done].
    split; [by rewrite append_empty_r|]. split; [done|].
    split; [cbn; lia | lia].
  - destruct (isZero_false_normal temp Hwf Hz) as [_ Hpos].
    destruct (divmod_small_ok temp 10) as (q & r & E & Hq & Hr & Hwq & _);
      [apply Hwf | lia |].
    pose proof (Z.mod_pos_bound (val (digits temp)) 10 ltac:(lia)) as Hrb.
    pose proof (Z.div_mod (val (digits temp)) 10 ltac:(lia)) as Hdm.
    rewrite <- Hr in Hrb, Hdm.
    destruct (digit_char r Hrb) as [Hc Hcd].
    set (c := ascii_of_nat (Z.to_nat (u32 (48 + r) mod 256))) in *.
    assert (0 <= val (digits q) < n) as Hlt.
    { rewrite Hq, <- Hv. split; [apply Z.div_pos; lia | apply Z.div_lt; lia]. }
    destruct (IH (val (digits q)) Hlt q (s ++ String c EmptyString)%string Hwq eq_refl)
      as (fuel & t & Ht & Htd & Htv & _).
    exists (S fuel), (String c t). cbn [to_string_loop]. rewrite Hz, E, bind_Ok.
    cbn beta iota. fold c. rewrite Ht, append_assoc_1.
    split; [done|]. cbn [all_digits decimal_lsd]. rewrite Hcd, Htd, Hc, Htv.
    split; [done|]. split; [lia | done].
Qed.

(** X16.  Printing a canonical number and parsing the text gives the number back:
    the round trip holds for every number with a normal magnitude that is
    not a negative zero. *)
Theorem to_string_parse_roundtrip x :
  canonical x ->
  exists fuel s, to_string fuel x = Ok s /\ parse 1 s = Ok x.
Proof.
  intros [Hn Hsign]. pose proof (normal_wf x Hn) as Hwf.
  destruct (isZero x) eqn:Hz.
  - exists 0%nat, "0"%string. unfold to_string. rewrite Hz. split; [done|].
    apply isZero_val in Hz; [|done].
    pose proof (normal_val_0 _ Hn Hz) as Hd. specialize (Hsign Hz).
    destruct x as [dx sx]. cbn in *. subst. by vm_compute.
  - destruct (isZero_false_normal x Hwf Hz) as [_ Hpos].
    destruct (to_string_loop_spec (val (digits x)) ltac:(lia) (abs x) EmptyString)
      as (fuel & t & Ht & Htd & Htv & Hne); [by apply normal_wf | done |].
    specialize (Hne Hpos). cbn [String.append] in Ht.
    destruct (parse_digit_string 0 (string_rev t)) as (y & Hwy & Hvy & Hp1 & Hp2).
    { by rewrite all_digits_rev. }
    { by apply string_rev_nonempty. }
    rewrite decimal_rev, Htv in Hvy.
    assert (digits y = digits x) as Hd.
    { apply normal_val_inj; [|done..].
      destruct Hwy as [_ [E|Hny]]; [rewrite E in Hvy; cbn in Hvy; lia | done]. }
    rewrite Hd in Hp1, Hp2.
    exists fuel. unfold to_string. rewrite Hz, Ht, bind_Ok.
    eexists. split; [reflexivity|].
    destruct x as [dx [|]]; cbn [negative digits String.append] in *; done.
Qed.

Lemma to_string_parse_roundtrip_witness :
  exists fuel s, to_string fuel (mkBigInt [7] true) = Ok s /\
    parse 1 s = Ok (mkBigInt [7] true).
Proof.
  apply to_string_parse_roundtrip. apply canonical_single. lia.
Defined.

(** ** The shift amount and the short cuts of [divmod] *)

(** X17.  [norm] is the bit length of the divisor's top word: it lies between 1
    and 32, is never 0, and adds up to 32 with the number of leading zero
    bits. *)
Theorem divmod_norm_bit_length D top :
  last (digits D) = Some top -> 0 < top < 2 ^ 32 ->
  exists norm lz, divmod_norm D = Ok norm /\ builtin_clz top = Ok lz /\
    norm = Z.log2 top + 1 /\ norm + lz = 32 /\ 1 <= norm <= 32 /\
    2 ^ (norm - 1) <= top < 2 ^ norm.
Proof.
  intros Hl Ht. unfold divmod_norm, back, builtin_clz. rewrite Hl, bind_Ok.
  destruct (Z.eqb_spec top 0) as [|_]; [lia|]. rewrite bind_Ok.
  pose proof (Z.log2_nonneg top).
  assert (Z.log2 top < 32) by (apply Z.log2_lt_pow2; lia).
  destruct (Z.log2_spec top ltac:(lia)) as [Hlo Hhi].
  eexists _, _. split; [reflexivity|]. split; [reflexivity|].
  replace (32 - (31 - Z.log2 top)) with (Z.log2 top + 1) by lia.
  replace (Z.log2 top + 1 - 1) with (Z.log2 top) by lia.
  replace (Z.succ (Z.log2 top)) with (Z.log2 top + 1) in Hhi by lia.
  split_and!; try done; lia.
Qed.

Lemma divmod_norm_bit_length_witness :
  exists norm lz, divmod_norm (mkBigInt [5; 12] false) = Ok norm /\
    builtin_clz 12 = Ok lz /\
    norm = Z.log2 12 + 1 /\ norm + lz = 32 /\ 1 <= norm <= 32 /\
    2 ^ (norm - 1) <= 12 < 2 ^ norm.
Proof.
  apply (divmod_norm_bit_length (mkBigInt [5; 12] false) 12); [reflexivity | lia].
Defined.

(** X18.  Without a long division: a zero dividend gives two empty zeros, and a
    dividend of smaller magnitude gives the empty zero and the dividend
    itself, sign included. *)
Theorem divmod_short_circuit fuel a b :
  wf a -> wf b -> isZero b = false ->
  (isZero a = true -> divmod fuel a b = Ok (of_int 0, of_int 0)) /\
  (isZero a = false -> val (digits a) < val (digits b) ->
   divmod fuel a b = Ok (of_int 0, a)).
Proof.
  intros Hwa Hwb Hzb. unfold divmod. rewrite Hzb. split.
  - by intros ->.
  - intros Hza Hlt. rewrite Hza.
    destruct (isZero_false_normal a Hwa Hza) as [Hna _].
    destruct (isZero_false_normal b Hwb Hzb) as [Hnb _].
    rewrite lt_nonneg by done. cbn [abs digits].
    by destruct (Z.ltb_spec (val (digits a)) (val (digits b))); [|lia].
Qed.

Lemma divmod_short_circuit_witness :
  divmod 0 (mkBigInt [7] true) (mkBigInt [9] false)
  = Ok (of_int 0, mkBigInt [7] true).
Proof.
  apply (proj2 (divmod_short_circuit 0 (mkBigInt [7] true) (mkBigInt [9] false)
                  (wf_single 7 true ltac:(lia)) (wf_single 9 false ltac:(lia))
                  eq_refl)); [reflexivity | cbn; lia].
Defined.

(** ** Order and equality together *)

(** X19.  Between two canonical numbers exactly one of [a < b], [a == b] and
    [b < a] holds. *)
Theorem lt_eqb_trichotomy a b :
  canonical a -> canonical b ->
  (lt a b = true /\ eqb a b = false /\ lt b a = false) \/
  (lt a b = false /\ eqb a b = true /\ lt b a = false) \/
  (lt a b = false /\ eqb a b = false /\ lt b a = true).
Proof.
  intros Ha Hb. rewrite !lt_canonical by done.
  pose proof (eqb_canonical a b Ha Hb) as Heq.
  destruct (Z.lt_trichotomy (value a) (value b)) as [H|[H|H]];
    [left | right; left | right; right].
  - split; [by apply Z.ltb_lt|]. split; [|apply Z.ltb_ge; lia].
    destruct (eqb a b); [|done]. destruct Heq as [H1 _]. specialize (H1 eq_refl). lia.
  - split; [apply Z.ltb_ge; lia|]. split; [by apply Heq | apply Z.ltb_ge; lia].
  - split; [apply Z.ltb_ge; lia|]. split; [|by apply Z.ltb_lt].
    destruct (eqb a b); [|done]. destruct Heq as [H1 _]. specialize (H1 eq_refl). lia.
Qed.

Lemma lt_eqb_trichotomy_witness :
  let a := mkBigInt [7] true in
  let b := mkBigInt [2] false in
  (lt a b = true /\ eqb a b = false /\ lt b a = false) \/
  (lt a b = false /\ eqb a b = true /\ lt b a = false) \/
  (lt a b = false /\ eqb a b = false /\ lt b a = true).
Proof.
  intros a b. apply lt_eqb_trichotomy; apply canonical_single; lia.
Defined.

(** ** The bitwise operations on values *)

Lemma word_bits_high x i : is_word x -> 32 <= i -> Z.testbit x i = false.
Proof.
  intros Hx Hi. unfold is_word in Hx.
  rewrite <- (Z.mod_small x (2 ^ 32)) by done.
  apply Z.mod_pow2_bits_high. lia.
Qed.

Lemma testbit_cons x a i :
  is_word x -> 0 <= i ->
  Z.testbit (x + 2 ^ 32 * a) i
  = if i <? 32 then Z.testbit x i else Z.testbit a (i - 32).
Proof.
  intros Hx Hi. unfold is_word in Hx.
  replace (x + 2 ^ 32 * a) with (a * 2 ^ 32 + x) by lia.
  rewrite <- lor_add_low by lia. rewrite Z.lor_spec, <- Z.shiftl_mul_pow2 by lia.
  rewrite Z.shiftl_spec by done.
  destruct (Z.ltb_spec i 32).
  - by rewrite Z.testbit_neg_r by lia.
  - rewrite (word_bits_high x i) by done. apply orb_false_r.
Qed.

Lemma is_word_land x y : is_word x -> is_word y -> is_word (Z.land x y).
Proof.
  unfold is_word. intros Hx Hy.
  assert (0 <= Z.land x y) by (apply Z.land_nonneg; lia).
  split; [done|].
  destruct (decide (Z.land x y = 0)) as [->|Hne]; [lia|].
  destruct (decide (x = 0)) as [->|]; [by rewrite Z.land_0_l in Hne|].
  apply Z.log2_lt_pow2; [lia|].
  pose proof (Z.log2_land x y ltac:(lia) ltac:(lia)).
  assert (Z.log2 x < 32) by (apply Z.log2_lt_pow2; lia). lia.
Qed.

Lemma is_word_lor x y : is_word x -> is_word y -> is_word (Z.lor x y).
Proof.
  unfold is_word. intros Hx Hy.
  assert (0 <= Z.lor x y) by (apply Z.lor_nonneg; lia).
  split; [done|].
  destruct (decide (Z.lor x y = 0)) as [->|Hne]; [lia|].
  apply Z.log2_lt_pow2; [lia|]. rewrite Z.log2_lor by lia.
  destruct (decide (x = 0)) as [->|], (decide (y = 0)) as [->|];
    cbn [Z.log2]; try (rewrite Z.lor_0_l in Hne || rewrite Z.lor_0_r in Hne);
    try lia.
  - apply Z.max_lub_lt; [lia|]. apply Z.log2_lt_pow2; lia.
  - apply Z.max_lub_lt; [|lia]. apply Z.log2_lt_pow2; lia.
  - apply Z.max_lub_lt; apply Z.log2_lt_pow2; lia.
Qed.

Lemma and_loop_val xs ys :
  words xs -> words ys ->
  val (and_loop xs ys) = Z.land (val xs) (val ys) /\ words (and_loop xs ys).
Proof.
  intros Hx. revert ys. induction Hx as [|x xs Hwx Hx IH]; intros ys Hy.
  - cbn. split; [done | constructor].
  - destruct Hy as [|y ys Hwy Hy].
    + cbn [and_loop val]. rewrite Z.land_0_r. split; [done | constructor].
    + destruct (IH ys Hy) as [Hv Hw]. cbn [and_loop val]. rewrite Hv.
      split; [|constructor; [by apply is_word_land | done]].
      apply Z.bits_inj'. intros i Hi.
      rewrite Z.land_spec, !testbit_cons by (done || by apply is_word_land).
      rewrite !Z.land_spec. by destruct (i <? 32).
Qed.

Lemma or_loop_val xs ys :
  words xs -> words ys ->
  val (or_loop xs ys) = Z.lor (val xs) (val ys) /\ words (or_loop xs ys).
Proof.
  intros Hx. revert ys. induction Hx as [|x xs Hwx Hx IH]; intros ys Hy.
  - destruct Hy as [|y ys Hwy Hy]; [cbn; split; [done | constructor]|].
    cbn [or_loop]. rewrite Z.lor_0_l.
    assert (map (Z.lor 0) ys = ys) as ->.
    { clear. induction ys as [|z zs IH]; cbn; [done | by rewrite IH]. }
    split; [done | by constructor].
  - destruct Hy as [|y ys Hwy Hy].
    + destruct (IH [] ltac:(constructor)) as [Hv Hw]. cbn [or_loop val] in *.
      rewrite !Z.lor_0_r in *. rewrite Hv. split; [done | by constructor].
    + destruct (IH ys Hy) as [Hv Hw]. cbn [or_loop val]. rewrite Hv.
      split; [|constructor; [by apply is_word_lor | done]].
      apply Z.bits_inj'. intros i Hi.
      rewrite Z.lor_spec, !testbit_cons by (done || by apply is_word_lor).
      rewrite !Z.lor_spec. by destruct (i <? 32).
Qed.

(** X20.  On the integer values of the magnitudes, [operator&] is the bitwise AND
    and [operator|] the bitwise OR; both results are well-formed. *)
Theorem bitwise_values a b :
  words (digits a) -> words (digits b) ->
  val (digits (band a b)) = Z.land (val (digits a)) (val (digits b)) /\
  val (digits (bor a b)) = Z.lor (val (digits a)) (val (digits b)) /\
  wf (band a b) /\ wf (bor a b).
Proof.
  intros Ha Hb.
  destruct (and_loop_val _ _ Ha Hb) as [Hav Haw].
  destruct (or_loop_val _ _ Ha Hb) as [Hov How].
  unfold band, bor. rewrite !digits_trim. cbn [digits].
  rewrite !val_trim_digits. split_and!; try done; by apply wf_trim.
Qed.

Lemma bitwise_values_witness :
  let a := mkBigInt [12; 5] true in
  let b := mkBigInt [10] false in
  val (digits (band a b)) = Z.land (val (digits a)) (val (digits b)) /\
  val (digits (bor a b)) = Z.lor (val (digits a)) (val (digits b)) /\
  wf (band a b) /\ wf (bor a b).
Proof.
  intros a b. apply bitwise_values; cbn [a b digits];
    repeat (apply Forall_cons; split; [unfold is_word; lia|]); apply Forall_nil_2.
Defined.

(** ** Leading zeros in the text *)

(** X21.  A zero in front of a non-empty string of digits does not change what the
    constructor builds, with or without a minus sign. *)
Theorem parse_leading_zero fuel s :
  all_digits s = true -> s <> EmptyString ->
  parse fuel (String "0" s) = parse fuel s /\
  parse fuel (String "-" (String "0" s)) = parse fuel (String "-" s).
Proof.
  intros Hd Hne. destruct s as [|c s]; [done|].
  cbn [all_digits] in Hd. apply andb_true_iff in Hd as [Hc _].
  assert (Ascii.eqb c "-" = false) as Hm.
  { apply Ascii.eqb_neq. intros ->. by vm_compute in Hc. }
  unfold parse. rewrite Hm.
  change (Ascii.eqb "0" "-") with false. change (Ascii.eqb "-" "-") with true.
  cbn beta iota.
  change (strip_zeros (String "0" (String c s))) with (strip_zeros (String c s)).
  done.
Qed.

Lemma parse_leading_zero_witness :
  parse 1 "07" = parse 1 "7" /\ parse 1 "-07" = parse 1 "-7".
Proof.
  apply (parse_leading_zero 1 "7"); [reflexivity | discriminate].
Defined.

(** ** Where the code cannot return *)

(** X22.  [operator+] and [operator-] never return when the sign flags differ and
    the right operand is a zero: each hands the operands to the other, and
    unary minus leaves the zero as it is. *)
Theorem add_sub_never_return_on_other_sign_zero fuel x z :
  negative x = negb (negative z) -> isZero z = true ->
  add fuel x z = OutOfFuel /\ sub fuel x z = OutOfFuel.
Proof. apply add_sub_zero_other_sign. Qed.

Lemma add_sub_never_return_on_other_sign_zero_witness :
  add 1000 (mkBigInt [7] false) (mkBigInt [0] true) = OutOfFuel /\
  sub 1000 (mkBigInt [7] false) (mkBigInt [0] true) = OutOfFuel.
Proof.
  apply add_sub_never_return_on_other_sign_zero; reflexivity.
Defined.

(** ** The read outside the remainder *)

(** X23.  For well-formed operands and a non-zero divisor, [divmod] stops at the
    read outside the remainder exactly when the operands, shifted by [norm],
    have a short residue: at some quotient position [i] below the top one,
    with [i + m >= 2], the shifted dividend modulo [divisor * B^(i+1)] is
    below [B^(i+m-1)], where [m] is the word count of the shifted divisor.
    The dividend [2^64] and the divisor 1 are such operands, at [i = 1]. *)
Theorem divmod_out_of_bounds_iff fuel a b norm :
  wf a -> wf b -> isZero b = false ->
  Z.of_nat (length (digits a)) < 2 ^ 26 ->
  (correction_fuel <= fuel)%nat ->
  divmod_norm (abs b) = Ok norm ->
  let divisor := shl (abs b) norm in
  let remainder := shl (abs a) norm in
  let m := length (digits divisor) in
  divmod fuel a b = Undefined OutOfBounds <->
  exists i,
    (i + m < length (digits remainder))%nat /\ (2 <= i + m)%nat /\
    val (digits remainder) mod (val (digits divisor) * pow32 (S i))
      < pow32 (i + m - 1).
Proof.
  intros Hwa Hwb Hzb Hsmall Hfuel Hn divisor remainder m.
  apply fuel_enough in Hfuel.
  destruct (isZero_false_normal b Hwb Hzb) as [Hnb Hbpos].
  destruct (divmod_norm_spec (abs b)) as (norm' & Hn' & Hnorm); [done..|].
  assert (norm' = norm) as -> by congruence. clear Hn'.
  destruct (shl_spec (abs b) norm Hnb ltac:(lia)) as (HDn & HDv & _).
  fold divisor in HDn, HDv. cbn [abs digits] in HDv.
  pose proof (normal_length _ HDn) as Hm1. fold m in Hm1.
  assert (0 < 2 ^ norm) as Hp by (apply Z.pow_pos_nonneg; lia).
  assert (forall q r, divmod fuel a b = Ok (q, r) ->
          (forall i, ~ (i + m < length (digits remainder))%nat) ->
          divmod fuel a b = Undefined OutOfBounds <->
          exists i,
            (i + m < length (digits remainder))%nat /\ (2 <= i + m)%nat /\
            val (digits remainder) mod (val (digits divisor) * pow32 (S i))
              < pow32 (i + m - 1)) as Hearly.
  { intros q r E Hlen. rewrite E. split; [done|].
    intros (i & Hi & _). by destruct (Hlen i). }
  destruct (isZero a) eqn:Hza.
  { destruct (divmod_early fuel a b Hwa Hwb Hzb) as (q & r & E & _); [by left|].
    apply (Hearly q r E). intros i. unfold remainder, shl.
    change (isZero (abs a)) with (isZero a). rewrite Hza. cbn [orb abs digits].
    unfold isZero in Hza. destruct (digits a) as [|d [|d' ds]]; cbn; [lia..|done]. }
  destruct (isZero_false_normal a Hwa Hza) as [Hna Hapos].
  destruct (shl_spec (abs a) norm Hna ltac:(lia)) as (HRn & HRv & _).
  fold remainder in HRn, HRv. cbn [abs digits] in HRv.
  destruct (Z.lt_ge_cases (val (digits a)) (val (digits b))) as [Hlt|Hge].
  { destruct (divmod_early fuel a b Hwa Hwb Hzb) as (q & r & E & _); [by right|].
    apply (Hearly q r E). intros i.
    assert (val (digits remainder) <= val (digits divisor)) as Hle by nia.
    pose proof (normal_length_le _ _ HRn HDn Hle). fold m in H. lia. }
  destruct (divmod_long fuel a b Hwa Hwb Hzb Hza Hge Hsmall)
    as (norm' & Hn' & _ & H).
  assert (norm' = norm) as -> by congruence. cbv zeta in H.
  fold divisor remainder m in H.
  destruct H as (HD & HDpos & Hk & Hinv & Hlen & _ & _ & Hoob & Hok).
  pose proof (divmod_loop_oob_iff fuel _ _ _ HD HDpos Hk Hfuel _ _ Hinv) as Hiff.
  fold m in Hiff.
  split.
  - intros E.
    destruct (divmod_loop_spec fuel _ _ _ HD HDpos Hk Hfuel _ _ Hinv)
      as [E'|(Q & R & E' & Hinv' & _ & HQlen)].
    + fold m in E'. apply Hiff in E' as (i & Hi & Hi2 & Hs).
      exists i. split; [|done].
      destruct (decide (i + m < length (digits remainder))%nat) as [|Hge']; [done|].
      assert (length (digits remainder) = (i + m)%nat) as Hnm by lia.
      destruct Hinv as (_ & _ & _ & _ & _ & Hlt).
      replace (S (length (digits remainder) - m)) with (S i) in Hlt by lia.
      pose proof (val_nonneg _ (normal_words _ HRn)) as HR0.
      rewrite Z.mod_small in Hs by lia.
      destruct (normal_val_lower _ HRn) as [E0|Hlow].
      * rewrite E0 in Hnm. cbn in Hnm. lia.
      * rewrite Hnm in Hlow. lia.
    + fold m in E'. destruct (Hok Q R E' Hinv' HQlen) as (q & r & Eq & _).
      rewrite Eq in E. done.
  - intros (i & Hi & Hi2 & Hs). apply Hoob, Hiff.
    exists i. split; [lia|]. by split.
Qed.

Lemma divmod_out_of_bounds_iff_witness :
  let a := mkBigInt [0; 0; 1] false in
  let b := mkBigInt [1] false in
  let divisor := shl (abs b) 1 in
  let remainder := shl (abs a) 1 in
  let m := length (digits divisor) in
  divmod correction_fuel a b = Undefined OutOfBounds <->
  exists i,
    (i + m < length (digits remainder))%nat /\ (2 <= i + m)%nat /\
    val (digits remainder) mod (val (digits divisor) * pow32 (S i))
      < pow32 (i + m - 1).
Proof.
  intros a b.
  apply (divmod_out_of_bounds_iff correction_fuel a b 1).
  - apply normal_wf. split; [repeat constructor; unfold is_word; lia|].
    right. by exists 1.
  - apply normal_wf, normal_singleton. unfold is_word. lia.
  - reflexivity.
  - cbn [a digits length]. lia.
  - apply Nat.le_refl.
  - reflexivity.
Defined.

(** ** Quotients of one word *)

(** The signed reading of [divmod_post] as truncating division. *)
Lemma divmod_post_quot_rem a b q r :
  wf a -> 0 < val (digits b) -> divmod_post a b q r ->
  value q = Z.quot (value a) (value b) /\ value r = Z.rem (value a) (value b).
Proof.
  intros [Hwa _] Hb (Hq & Hr & Hqn & Hrn & _ & _).
  pose proof (val_nonneg _ Hwa) as Ha.
  pose proof (Z.quot_div_nonneg _ _ Ha Hb) as Hquot.
  pose proof (Z.rem_mod_nonneg _ _ Ha Hb) as Hrem.
  unfold value. rewrite Hqn, Hrn, Hq, Hr.
  destruct (negative a), (negative b); cbn [Bool.eqb negb andb];
    rewrite ?Z.quot_opp_opp, ?Z.quot_opp_l, ?Z.quot_opp_r,
            ?Z.rem_opp_opp, ?Z.rem_opp_l, ?Z.rem_opp_r by lia;
    rewrite Hquot, Hrem;
    destruct (Z.eqb_spec (val (digits a) / val (digits b)) 0) as [E1|E1],
      (Z.eqb_spec (val (digits a) mod val (digits b)) 0) as [E2|E2];
    cbn [negb]; rewrite ?E1, ?E2; split; reflexivity.
Qed.

(** X24.  When the dividend is below [2^32] times the divisor in magnitude, so
    that the quotient is a single word, [divmod] makes no read outside the
    remainder: with fuel for its correction loops it returns, and so do
    [operator/] and [operator%], the quotient and the remainder of the
    division truncated toward zero. *)
Theorem divmod_one_word_quotient fuel a b :
  wf a -> wf b -> isZero b = false ->
  Z.of_nat (length (digits a)) < 2 ^ 26 ->
  (correction_fuel <= fuel)%nat ->
  Z.abs (value a) < Z.abs (value b) * 2 ^ 32 ->
  exists q r,
    divmod fuel a b = Ok (q, r) /\ div fuel a b = Ok q /\ rem fuel a b = Ok r /\
    value q = Z.quot (value a) (value b) /\
    value r = Z.rem (value a) (value b) /\
    wf q /\ wf r.
Proof.
  intros Hwa Hwb Hzb Hsmall Hfuel Hone. apply fuel_enough in Hfuel.
  destruct (isZero_false_normal b Hwb Hzb) as [_ Hbpos].
  pose proof (val_nonneg _ (proj1 Hwa)) as Ha.
  assert (val (digits a) < val (digits b) * 2 ^ 32) as Hone'.
  { unfold value in Hone. destruct (negative a), (negative b); lia. }
  destruct (divmod_one_word fuel a b Hwa Hwb Hzb Hsmall Hfuel Hone')
    as (q & r & E & Hpost).
  exists q, r. unfold div, rem. rewrite E.
  split; [done|]. split; [done|]. split; [done|].
  destruct (divmod_post_quot_rem a b q r Hwa Hbpos Hpost) as [Hq Hr].
  destruct Hpost as (_ & _ & _ & _ & Hwq & Hwr). done.
Qed.

Lemma divmod_one_word_quotient_witness :
  let a := mkBigInt [7] true in
  let b := mkBigInt [2] false in
  exists q r,
    divmod correction_fuel a b = Ok (q, r) /\
    div correction_fuel a b = Ok q /\ rem correction_fuel a b = Ok r /\
    value q = Z.quot (value a) (value b) /\
    value r = Z.rem (value a) (value b) /\
    wf q /\ wf r.
Proof.
  intros a b.
  apply (divmod_one_word_quotient correction_fuel a b).
  - apply normal_wf, normal_singleton. unfold is_word. lia.
  - apply normal_wf, normal_singleton. unfold is_word. lia.
  - reflexivity.
  - cbn [a digits length]. lia.
  - apply Nat.le_refl.
  - cbn. lia.
Defined.

(** ** The correction loop *)

(** X25.  Whenever the window is read in bounds, the trial digit is at least the
    true quotient digit [q] of the position and at most [0xFFFFFFFF], and
    the correction loop leaves with [q] after [qguess - q] decrements. *)
Theorem correction_loop_exits R D i qguess :
  magnitude R -> magnitude D -> 0 < val (digits D) ->
  val (digits R) < val (digits D) * pow32 (S i) ->
  0 <= 32 * Z.of_nat i < 2 ^ 31 ->
  estimate R D (Z.of_nat (length (digits D))) (Z.of_nat i) = Ok qguess ->
  let q := digit_at (val (digits R)) (val (digits D)) i in
  q <= qguess <= mask32 /\
  exists t mult,
    mul D (of_uint32 (u32 qguess)) = Ok t /\
    correct_loop (S (Z.to_nat (qguess - q))) R D (Z.of_nat i) qguess
      (shl t (32 * Z.of_nat i)) = Ok (q, mult) /\
    val (digits mult) = val (digits D) * q * pow32 i.
Proof.
  intros HR HD HDpos Hlt Hi Hest q.
  destruct (estimate_spec R D i HR HD HDpos Hlt) as [[_ E]|(_ & qg' & E & Hqg)];
    rewrite E in Hest; [done|].
  injection Hest as ->. split; [done|].
  assert (0 <= val (digits R)) as HR0.
  { destruct HR as [_ HR]. apply val_nonneg. by apply normal_words. }
  destruct (digit_at_bounds _ _ i HR0 HDpos Hlt) as (Hq & Hqlo & Hqhi).
  fold q in Hq, Hqlo, Hqhi, Hqg. unfold mask32 in Hqg.
  destruct (trial_spec D qguess i HD ltac:(lia) Hi) as (t & Ht & Htm & Htv).
  destruct (correct_loop_spec (S (Z.to_nat (qguess - q))) R D i q HR HD Hi
              ltac:(lia) ltac:(lia) qguess (shl t (32 * Z.of_nat i)))
    as (mult & Hloop & _ & Hmv); [unfold mask32; lia | done | done | lia |].
  by exists t, mult.
Qed.

Lemma correction_loop_exits_witness :
  let R := mkBigInt [7] false in
  let D := mkBigInt [2] false in
  let q := digit_at (val (digits R)) (val (digits D)) 0 in
  q <= 3 <= mask32 /\
  exists t mult,
    mul D (of_uint32 (u32 3)) = Ok t /\
    correct_loop (S (Z.to_nat (3 - q))) R D (Z.of_nat 0) 3
      (shl t (32 * Z.of_nat 0)) = Ok (q, mult) /\
    val (digits mult) = val (digits D) * q * pow32 0.
Proof.
  intros R D.
  apply (correction_loop_exits R D 0 3).
  - split; [reflexivity|]. apply normal_singleton. unfold is_word. lia.
  - split; [reflexivity|]. apply normal_singleton. unfold is_word. lia.
  - cbn [D digits val]. lia.
  - cbn [R D digits val]. rewrite pow32_S, pow32_0. lia.
  - lia.
  - reflexivity.
Defined.
